(** * genaikit.nlp.processors: chunking, semantic grouping, embedding fetch

    A shallow embedding of [src/genaikit/nlp/processors.py].

    - Python [str] is [string], [List[str]] is [list string]; Python [int]
      is [Z] (the token budget [max_tokens] may be any integer).
    - The tokenizer ([encoding.encode], from tiktoken through
      [genaikit.utils.get_encoding]), the spaCy pipeline ([self.nlp]) and the
      embedding service are collaborators outside the sources; they are
      [Variable]s of the sections below.
    - The two parallel lists [chunks] / [tokens] that the chunkers append to
      in lock step are kept as one list of rows; each row also remembers the
      sentence list it was joined from ([members]), which the Python code
      discards after the join. *)

From Stdlib Require Import ZArith Lia Ascii String.
From Stdlib Require Import Floats.PrimFloat.
From stdpp Require Import base list strings.

Local Open Scope Z_scope.

(** * Part I: the module *)

(** ** Python built-ins used by the module *)

(** [sep.join(l)] *)
Definition join (sep : string) (l : list string) : string := String.concat sep l.

(** [len(l)] of a list, as a Python integer *)
Definition len {A : Type} (l : list A) : Z := Z.of_nat (length l).

(** [len(s)] of a string (strings are taken as sequences of one-byte
    characters) *)
Definition str_len (s : string) : Z := Z.of_nat (String.length s).

(** [sum(l)] *)
Definition total (l : list Z) : Z := fold_right Z.add 0 l.

(** [text.split(". ")]: the pieces between successive, non-overlapping
    occurrences of the two-character separator, scanning left to right.
    [acc] is the piece being read. *)
Fixpoint split_dot_space (acc s : string) : list string :=
  match s with
  | EmptyString => [acc]
  | String "."%char (String " "%char rest) => acc :: split_dot_space "" rest
  | String c rest => split_dot_space (acc +:+ String c "") rest
  end.

(** ** Rows produced by the chunkers *)

Record row := Row {
  members : list string;   (* the sentences joined into the chunk *)
  row_text : string;       (* the entry appended to [chunks] *)
  row_tokens : Z           (* the entry appended to [tokens] *)
}.

Section Chunkers.

(** [encoding.encode]: text to token ids; only the number of ids is used. *)
Variable encode : string -> list N.

(** *** TextProcessor.to_chunks, lines 39-59 *)

Record chunker := Chunker {
  out : list row;               (* chunks, tokens *)
  current_chunk : list string;
  current_tokens : Z
}.

Definition chunker_init : chunker :=
  {| out := []; current_chunk := []; current_tokens := 0 |}.

(** one iteration of [for sentence in self.sequences] *)
Definition to_chunks_body (max_tokens : Z) (st : chunker) (sentence : string) : chunker :=
  let encoded_text := encode (sentence +:+ " ") in
  if current_tokens st + len encoded_text <=? max_tokens then
    {| out := out st;
       current_chunk := current_chunk st ++ [sentence];
       current_tokens := current_tokens st + len encoded_text |}
  else
    {| out := out st ++ [Row (current_chunk st) (join " " (current_chunk st)) (current_tokens st)];
       current_chunk := [sentence];
       current_tokens := len encoded_text |}.

(** [if current_chunk: ...] after the loop *)
Definition to_chunks_flush (st : chunker) : list row :=
  match current_chunk st with
  | [] => out st
  | _ :: _ => out st ++ [Row (current_chunk st) (join " " (current_chunk st)) (current_tokens st)]
  end.

Definition to_chunks_loop (max_tokens : Z) (sequences : list string) : chunker :=
  fold_left (to_chunks_body max_tokens) sequences chunker_init.

Definition to_chunks_rows (max_tokens : Z) (sequences : list string) : list row :=
  to_chunks_flush (to_chunks_loop max_tokens sequences).

(** *** naive_split, lines 210-214 *)

Definition naive_split (text : string) (minimal_length : Z) : list string :=
  List.filter (fun sentence => str_len sentence >? minimal_length)
              (split_dot_space "" text).

(** *** naive_token_splitter, lines 234-266 *)

Record splitter := Splitter {
  rows : list row;          (* chunks, tokens *)
  chunk : list string;
  total_tokens : Z
}.

Definition splitter_init : splitter :=
  {| rows := []; chunk := []; total_tokens := 0 |}.

Definition nonempty {A : Type} (l : list A) : bool :=
  match l with [] => false | _ :: _ => true end.

(** one iteration of [for sentence, n_token in zip(sentences, n_tokens)] *)
Definition splitter_body (max_tokens : Z) (st : splitter) (item : string * Z) : splitter :=
  let '(sentence, n_token) := item in
  let st :=
    if (total_tokens st + n_token >? max_tokens) && nonempty (chunk st) then
      {| rows := rows st ++ [Row (chunk st) (join ". " (chunk st) +:+ ".") (total_tokens st)];
         chunk := [];
         total_tokens := 0 |}
    else st in
  if n_token >? max_tokens then st
  else
    {| rows := rows st;
       chunk := chunk st ++ [sentence];
       total_tokens := total_tokens st + (n_token + 1) |}.

(** [len(encoding.encode(" " + sentence))], the count measured for a
    sentence by [naive_token_splitter] *)
Definition measure_leading (sentence : string) : Z := len (encode (" " +:+ sentence)).

(** [len(encoding.encode(sentence + ' '))], the count measured for a
    sentence by [to_chunks] *)
Definition measure_trailing (sentence : string) : Z := len (encode (sentence +:+ " ")).

(** the same iteration for a sentence taken with its measured count *)
Definition splitter_step (max_tokens : Z) (st : splitter) (sentence : string) : splitter :=
  splitter_body max_tokens st (sentence, measure_leading sentence).

Definition splitter_loop (max_tokens : Z) (sentences : list string) : splitter :=
  let n_tokens := map measure_leading sentences in
  fold_left (splitter_body max_tokens) (zip sentences n_tokens) splitter_init.

(** The rows of the returned table: the loop's [chunks] and [tokens]
    (the round trip of the counts through the string array and back
    through [astype('int')] leaves them as they are). *)
Definition naive_rows (max_tokens : Z) (sentences : list string) : list row :=
  rows (splitter_loop max_tokens sentences).

Definition naive_token_splitter (text : string) (max_tokens minimal_length : Z) : list (string * Z) :=
  map (fun r => (row_text r, row_tokens r))
      (naive_rows max_tokens (naive_split text minimal_length)).

End Chunkers.

(** ** TextProcessor: state, exceptions, methods *)

Definition vector := list float.

(** A [pandas.DataFrame] with the columns [EMBEDDINGS_COLUMNS]: the text
    and token-count columns row by row, and the embedding column once it
    has been assigned. ([EMBEDDINGS_COLUMNS] is declared in
    [genaikit.constants], outside the sources; its three entries are taken
    to name the columns 'chunks', 'n_tokens' and the embedding column.) *)
Record DataFrame := mkDataFrame {
  records : list (string * Z);
  embedding_column : option (list vector)
}.

(** The values a [data] / [text] argument can hold. *)
Inductive data :=
| Str (s : string)
| StrList (l : list string)
| Frame (df : DataFrame).

(** The attributes of a [TextProcessor] the methods read and write. *)
Record processor := Processor {
  text : option data;
  sequences : list string;
  chunks : list string;
  n_tokens : list Z;
  segments : list string;
  dataframe : DataFrame
}.

Inductive exn :=
| IndexError
| ValueError
| ProviderError (msg : string).

(** How a call ends: with a value, with an exception, or not within the
    steps granted to a [while] loop. *)
Inductive outcome (A : Type) :=
| Return (a : A)
| Raise (e : exn)
| Unfinished.

Arguments Return {A} a.
Arguments Raise {A} e.
Arguments Unfinished {A}.

(** A method: from the processor before the call to the processor after
    it and the outcome. Attributes assigned before an exception stay
    assigned. *)
Definition M (A : Type) : Type := processor -> processor * outcome A.

Definition ret {A : Type} (a : A) : M A := fun p => (p, Return a).

Definition bind {A B : Type} (m : M A) (k : A -> M B) : M B :=
  fun p =>
    match m p with
    | (p', Return a) => k a p'
    | (p', Raise e) => (p', Raise e)
    | (p', Unfinished) => (p', Unfinished)
    end.

Definition get : M processor := fun p => (p, Return p).

Definition lift {A : Type} (o : outcome A) : M A := fun p => (p, o).

Declare Scope method_scope.
Delimit Scope method_scope with method.
Notation "x <- m ;; k" := (bind m (fun x => k))
  (at level 100, m at next level, right associativity) : method_scope.
Notation "m ;; k" := (bind m (fun _ => k))
  (at level 100, right associativity) : method_scope.

Definition set_text (v : data) : M unit := fun p =>
  (Processor (Some v) (sequences p) (chunks p) (n_tokens p) (segments p) (dataframe p), Return tt).
Definition set_sequences (v : list string) : M unit := fun p =>
  (Processor (text p) v (chunks p) (n_tokens p) (segments p) (dataframe p), Return tt).
Definition set_chunks (v : list string) : M unit := fun p =>
  (Processor (text p) (sequences p) v (n_tokens p) (segments p) (dataframe p), Return tt).
Definition set_n_tokens (v : list Z) : M unit := fun p =>
  (Processor (text p) (sequences p) (chunks p) v (segments p) (dataframe p), Return tt).
Definition set_segments (v : list string) : M unit := fun p =>
  (Processor (text p) (sequences p) (chunks p) (n_tokens p) v (dataframe p), Return tt).
Definition set_dataframe (v : DataFrame) : M unit := fun p =>
  (Processor (text p) (sequences p) (chunks p) (n_tokens p) (segments p) v, Return tt).

(** The local variables of the [while] loop of [group_by_semantics].
    [compared] is not in the Python code: it logs, in order, the index
    pairs handed to [similarity]. *)
Record grouping := Grouping {
  start_idx : nat;
  end_idx : nat;
  segment : list string;
  closed : list string;              (* the local list [segments] *)
  compared : list (nat * nat)
}.

Section Pipeline.

Local Open Scope method_scope.

Variable encode : string -> list N.

(** The spaCy pipeline [self.nlp]: parsed documents, their sentence
    texts, their text and their similarity score. *)
Variable Doc : Type.
Variable nlp : string -> Doc.
Variable sents : Doc -> list string.
Variable doc_text : Doc -> string.
Variable similarity : Doc -> Doc -> float.

(** *** split, lines 23-27. [self.nlp] takes a string; on any other value
    it raises. *)
Definition split (t : data) : M (list string) :=
  set_text t ;;
  match t with
  | Str s =>
      let doc := nlp s in
      set_sequences (sents doc) ;;
      p <- get ;; ret (sequences p)
  | _ => lift (Raise ValueError)
  end.

(** *** to_chunks, lines 29-62 *)
Definition to_chunks (t : option data) (max_tokens : Z) : M (list string) :=
  match t with
  | Some t => set_text t ;; split t ;; ret tt
  | None => ret tt
  end ;;
  p <- get ;;
  let rows := to_chunks_rows encode max_tokens (sequences p) in
  set_chunks (map row_text rows) ;;
  set_n_tokens (map row_tokens rows) ;;
  ret (map row_text rows).

(** *** group_by_semantics, lines 85-99: the loop *)

Section Grouping.

Variable threshold : float.
Variable chunks_ : list string.       (* [self.chunks] *)
Variable docs : list Doc.

(** one iteration of [while end_idx < len(docs)]; [x >= threshold] on
    floats is [threshold <= x] *)
Definition group_body (st : grouping) : outcome grouping :=
  match docs !! start_idx st, docs !! end_idx st with
  | Some pivot, Some candidate =>
      if PrimFloat.leb threshold (similarity pivot candidate) then
        Return {| start_idx := start_idx st;
                  end_idx := S (end_idx st);
                  segment := segment st ++ [doc_text candidate];
                  closed := closed st;
                  compared := compared st ++ [(start_idx st, end_idx st)] |}
      else
        match chunks_ !! end_idx st with
        | Some c =>
            Return {| start_idx := end_idx st;
                      end_idx := S (end_idx st);
                      segment := [c];
                      closed := closed st ++ [join " " (segment st)];
                      compared := compared st ++ [(start_idx st, end_idx st)] |}
        | None => Raise IndexError
        end
  | _, _ => Raise IndexError
  end.

Fixpoint group_while (steps : nat) (st : grouping) : outcome grouping :=
  if (end_idx st <? length docs)%nat then
    match steps with
    | O => Unfinished
    | S steps' =>
        match group_body st with
        | Return st' => group_while steps' st'
        | Raise e => Raise e
        | Unfinished => Unfinished
        end
    end
  else Return st.

(** [if segment: segments.append(" ".join(segment))] *)
Definition group_flush (st : grouping) : list string :=
  match segment st with
  | [] => closed st
  | _ :: _ => closed st ++ [join " " (segment st)]
  end.

End Grouping.

(** Lines 85-99 on a given list of chunks: the segments, and the log of
    comparisons. [self.chunks[start_idx]] raises on an empty list. *)
Definition group_segments (threshold : float) (chunks_ : list string)
    : outcome (list string * list (nat * nat)) :=
  let docs := nlp <$> chunks_ in
  match chunks_ !! 0%nat with
  | None => Raise IndexError
  | Some c0 =>
      match group_while threshold chunks_ docs (length docs)
                        (Grouping 0 1 [c0] [] []) with
      | Return st => Return (group_flush st, compared st)
      | Raise e => Raise e
      | Unfinished => Unfinished
      end
  end.

(** *** group_by_semantics, lines 64-101 *)
Definition group_by_semantics (d : option data) (max_tokens : Z) (threshold : float)
    : M (list string) :=
  match d with
  | Some (StrList l) =>
      p <- get ;;
      (if nonempty (n_tokens p) then ret tt
       else set_n_tokens (map (fun chunk => len (encode chunk)) l)) ;;
      set_chunks l
  | Some d => to_chunks (Some d) max_tokens ;; ret tt
  | None => ret tt
  end ;;
  p <- get ;;
  r <- lift (group_segments threshold (chunks p)) ;;
  set_segments (fst r) ;;
  ret (fst r).

(** *** to_dataframe, lines 103-125. [pd.DataFrame] of two columns of
    different lengths raises. *)
Definition to_dataframe (d : option data) (max_tokens : Z) (threshold : float)
    : M DataFrame :=
  match d with
  | Some d => group_by_semantics (Some d) max_tokens threshold ;; ret tt
  | None => ret tt
  end ;;
  p <- get ;;
  if (length (chunks p) =? length (n_tokens p))%nat then
    set_dataframe (mkDataFrame (zip (chunks p) (n_tokens p)) None) ;;
    p <- get ;; ret (dataframe p)
  else lift (Raise ValueError).

(** *** The provider client

    [OpenAI] and [AsyncOpenAI] come from the openai package, outside the
    sources. What the model takes from it: a client carries a number of
    retries, [max_retries] when the argument is passed and the package
    default otherwise; a request whose attempt fails is attempted again
    while retries remain, and the failure of the last attempt is raised.
    [service input k] is the answer of the embedding service to attempt
    number [k] of the request for [input]. *)

Variable DEFAULT_MAX_RETRIES : nat.
Variable service : string -> nat -> exn + vector.

Record client := Client { max_retries : nat }.

Definition OpenAI (max_retries : option nat) : client :=
  Client (default DEFAULT_MAX_RETRIES max_retries).

Definition AsyncOpenAI (max_retries : option nat) : client :=
  Client (default DEFAULT_MAX_RETRIES max_retries).

Fixpoint request (retries_left attempt : nat) (input : string) : outcome vector :=
  match service input attempt with
  | inr v => Return v
  | inl e =>
      match retries_left with
      | O => Raise e
      | S r => request r (S attempt) input
      end
  end.

(** [client.embeddings.create(input=..., model=...)] followed by
    [.data[0].embedding] *)
Definition create_embedding (c : client) (input : string) : outcome vector :=
  request (max_retries c) 0 input.

(** The number of times [request] repeats a failed attempt. *)
Fixpoint retries_made (retries_left attempt : nat) (input : string) : nat :=
  match service input attempt with
  | inr _ => O
  | inl _ =>
      match retries_left with
      | O => O
      | S r => S (retries_made r (S attempt) input)
      end
  end.

(** *** embeddings, lines 127-156 *)

(** [for _, row in self.dataframe.iterrows(): embeddings.append(...)] *)
Fixpoint fetch_rows (c : client) (rows : list (string * Z)) (embeddings : list vector)
    : outcome (list vector) :=
  match rows with
  | [] => Return embeddings
  | row :: rest =>
      match create_embedding c (fst row) with
      | Return v => fetch_rows c rest (embeddings ++ [v])
      | Raise e => Raise e
      | Unfinished => Unfinished
      end
  end.

(** [self.dataframe[EMBEDDINGS_COLUMNS[2]] = values] *)
Definition assign_embeddings (values : list vector) : M unit :=
  p <- get ;;
  set_dataframe (mkDataFrame (records (dataframe p)) (Some values)).

Definition embeddings (d : option data) (max_tokens : Z) (threshold : float)
    : M DataFrame :=
  match d with
  | None => ret tt
  | Some (Frame _) => ret tt
  | Some d => to_dataframe (Some d) max_tokens threshold ;; ret tt
  end ;;
  let client := OpenAI None in
  p <- get ;;
  embeddings <- lift (fetch_rows client (records (dataframe p)) []) ;;
  assign_embeddings embeddings ;;
  p <- get ;; ret (dataframe p).

(** *** async_embeddings, lines 158-194

    [asyncio.gather] runs one task per row. The tasks finish in an order
    the code does not control: [completions] lists the task indices in the
    order the tasks finish. A task that finishes with a vector fills its
    own slot; the first task that finishes with an exception makes
    [gather] raise it. When every task has finished, the slots, in task
    order, are the result. *)

Fixpoint gather_run (c : client) (inputs : list string) (completions : list nat)
    (slots : list (option vector)) : outcome (list (option vector)) :=
  match completions with
  | [] => Return slots
  | i :: rest =>
      match inputs !! i with
      | None => gather_run c inputs rest slots
      | Some input =>
          match create_embedding c input with
          | Return v => gather_run c inputs rest (<[i := Some v]> slots)
          | Raise e => Raise e
          | Unfinished => Unfinished
          end
      end
  end.

(** The result list once every slot is filled. *)
Fixpoint collect (slots : list (option vector)) : outcome (list vector) :=
  match slots with
  | [] => Return []
  | Some v :: rest =>
      match collect rest with
      | Return vs => Return (v :: vs)
      | Raise e => Raise e
      | Unfinished => Unfinished
      end
  | None :: _ => Unfinished
  end.

Definition gather (c : client) (schedule : nat -> list nat) (inputs : list string)
    : outcome (list vector) :=
  let n := length inputs in
  match gather_run c inputs (schedule n) (replicate n None) with
  | Return slots => collect slots
  | Raise e => Raise e
  | Unfinished => Unfinished
  end.

Definition async_embeddings (schedule : nat -> list nat) (d : option data)
    (max_tokens : Z) (threshold : float) : M DataFrame :=
  match d with
  | None => ret tt
  | Some d => to_dataframe (Some d) max_tokens threshold ;; ret tt
  end ;;
  let client := AsyncOpenAI (Some 1%nat) in
  p <- get ;;
  let tasks := map fst (records (dataframe p)) in
  values <- lift (gather client schedule tasks) ;;
  assign_embeddings values ;;
  p <- get ;; ret (dataframe p).

End Pipeline.

(** *** naive_text_to_embeddings, lines 275-288

    [TextProcessor()] is built by the base class, outside the sources: the
    processor it gives is the argument [fresh]. The splitter is called with
    its default [minimal_length] of 50 and [embeddings] with no [data] and
    its defaults for [max_tokens] and [threshold]. *)
Definition naive_text_to_embeddings
    (encode : string -> list N) (Doc : Type) (nlp : string -> Doc)
    (sents : Doc -> list string) (doc_text : Doc -> string)
    (similarity : Doc -> Doc -> float)
    (DEFAULT : nat) (service : string -> nat -> exn + vector)
    (fresh : processor) (text : string) (max_tokens : Z)
    : processor * outcome DataFrame :=
  bind (set_dataframe (mkDataFrame (naive_token_splitter encode text max_tokens 50) None))
       (fun _ => embeddings encode Doc nlp sents doc_text similarity DEFAULT service
                            None 120 0.8%float)
       fresh.

(** ** Pivot grouping, as described *)

Section PivotGrouping.

Variable Doc : Type.
Variable nlp : string -> Doc.
Variable doc_text : Doc -> string.
Variable similarity : Doc -> Doc -> float.
Variable threshold : float.

(** Pivot grouping as the description words it: the candidate is compared
    with the chunk that opened the current segment; when the score reaches
    the threshold the candidate joins the segment, otherwise the segment is
    closed and the candidate opens the next one and becomes the pivot. *)
Fixpoint pivot_segments (pivot : string) (current : list string) (candidates : list string)
    : list (list string) :=
  match candidates with
  | [] => [current]
  | c :: rest =>
      if PrimFloat.leb threshold (similarity (nlp pivot) (nlp c)) then
        pivot_segments pivot (current ++ [doc_text (nlp c)]) rest
      else current :: pivot_segments c [c] rest
  end.

(** The comparisons of pivot grouping, as (pivot index, candidate index),
    for candidates numbered from [i] on and a pivot at index [p]. *)
Fixpoint pivot_comparisons (p i : nat) (pivot : string) (candidates : list string)
    : list (nat * nat) :=
  match candidates with
  | [] => []
  | c :: rest =>
      (p, i) ::
      if PrimFloat.leb threshold (similarity (nlp pivot) (nlp c)) then
        pivot_comparisons p (S i) pivot rest
      else pivot_comparisons i (S i) c rest
  end.

End PivotGrouping.

(** ** The description of the chunkers, read literally *)

(** The reading of the token count of a row as the plain sum of the counts
    measured for its member sentences, for both chunkers. *)
Definition tokens_are_measured_sum (encode : string -> list N) (max_tokens : Z)
    (sentences : list string) : Prop :=
  Forall (fun r => row_tokens r = total (map (measure_trailing encode) (members r)))
         (to_chunks_rows encode max_tokens sentences) /\
  Forall (fun r => row_tokens r = total (map (measure_leading encode) (members r)))
         (naive_rows encode max_tokens sentences).

(** The reading of the text of a row as its member sentences joined by one
    space, for both chunkers. *)
Definition text_is_space_joined (encode : string -> list N) (max_tokens : Z)
    (sentences : list string) : Prop :=
  Forall (fun r => row_text r = join " " (members r))
         (to_chunks_rows encode max_tokens sentences) /\
  Forall (fun r => row_text r = join " " (members r))
         (naive_rows encode max_tokens sentences).

(** ** Occurrences of the separator ". " in a string *)

(** [". " in s] *)
Fixpoint has_dot_space (s : string) : bool :=
  match s with
  | EmptyString => false
  | String c rest =>
      match rest with
      | EmptyString => false
      | String d _ => (Ascii.eqb c "." && Ascii.eqb d " ") || has_dot_space rest
      end
  end.

(** [s.endswith(".")] *)
Fixpoint ends_with_dot (s : string) : bool :=
  match s with
  | EmptyString => false
  | String c rest =>
      match rest with
      | EmptyString => Ascii.eqb c "."
      | String _ _ => ends_with_dot rest
      end
  end.

(** [s.startswith(" ")] *)
Definition starts_with_space (s : string) : bool :=
  match s with
  | EmptyString => false
  | String d _ => Ascii.eqb d " "
  end.

(** ** Stand-ins for closed examples *)

(** A stand-in tokenizer for closed examples: one token per character. *)
Definition char_tokens (s : string) : list N :=
  map (fun c => N_of_ascii c) (list_ascii_of_string s).

(** A pipeline for closed examples: a document is its text, and the score
    of two documents is 0.875 when they start with the same character or
    with neighbouring letters, 0.125 otherwise. *)
Definition first_code (s : string) : nat :=
  match s with
  | EmptyString => O
  | String c _ => nat_of_ascii c
  end.

Definition toy_similarity (a b : string) : float :=
  if ((first_code a - first_code b <=? 1) && (first_code b - first_code a <=? 1))%nat
  then 0.875%float else 0.125%float.

(** A service for closed examples: every attempt is answered, with a
    one-entry vector read off the text. *)
Definition toy_response (input : string) : vector := [toy_similarity input "m"].

Definition toy_service (input : string) (attempt : nat) : exn + vector :=
  inr (toy_response input).

Definition fetch_processor : processor :=
  Processor None [] ["a b"; "m n"; "z"] [2; 2; 1] []
            (mkDataFrame [("a b", 2); ("m n", 2); ("z", 1)] None).

(** A service that is down: every attempt fails. *)
Definition service_down (input : string) (attempt : nat) : exn + vector :=
  inl (ProviderError "connection error").

(** A service that fails the first two attempts of each request and
    answers the third. *)
Definition service_flaky (input : string) (attempt : nat) : exn + vector :=
  if (attempt <? 2)%nat then inl (ProviderError "timeout") else inr (toy_response input).

Definition stale_processor : processor :=
  Processor None [] ["one two three four five six seven"] [34] [] (mkDataFrame [] None).

(** A sentence detector for closed examples: the non-empty pieces between
    ". ". *)
Definition toy_sents (doc : string) : list string := naive_split doc 0.

(** A service that answers every text but those starting with "x", for
    which every attempt fails with the text as message. *)
Definition service_picky (input : string) (attempt : nat) : exn + vector :=
  if (first_code input =? 120)%nat then inl (ProviderError input)
  else inr (toy_response input).

Definition picky_processor : processor :=
  Processor None [] [] [] []
            (mkDataFrame [("a b", 2); ("x one", 2); ("m n", 2); ("x two", 2)] None).

(** * Part II: facts *)

(** ** Lists and loops *)

Lemma total_app (l1 l2 : list Z) : total (l1 ++ l2) = total l1 + total l2.
Proof. induction l1 as [|x l1 IH]; simpl; [reflexivity | rewrite IH; lia]. Qed.

Lemma fold_left_snoc {A B : Type} (f : A -> B -> A) (l : list B) (x : B) (a : A) :
  fold_left f (l ++ [x]) a = f (fold_left f l a) x.
Proof. rewrite fold_left_app. reflexivity. Qed.

(** An invariant of the loop body that holds initially holds after the
    [for] loop. *)
Lemma for_loop_invariant {A B : Type} (f : A -> B -> A) (I : list B -> A -> Prop) (a : A) :
  I [] a ->
  (forall done x st, I done st -> I (done ++ [x]) (f st x)) ->
  forall l, I l (fold_left f l a).
Proof.
  intros H0 Hstep l. induction l as [|x l IH] using rev_ind; [exact H0|].
  rewrite fold_left_snoc. apply Hstep, IH.
Qed.

Example split_example : split_dot_space "" "A. B. C." = ["A"; "B"; "C."].
Proof. reflexivity. Qed.

Example to_chunks_example :
  map row_text (to_chunks_rows char_tokens 8 ["ab"; "cd"; "efghi"; "j"]) = ["ab cd"; "efghi j"].
Proof. reflexivity. Qed.

(** ** Facts about the two chunkers *)

Section ChunkerFacts.

Variable encode : string -> list N.
Variable max_tokens : Z.

Local Abbreviation body := (to_chunks_body encode max_tokens).
Local Abbreviation nstep := (splitter_step encode max_tokens).
Local Abbreviation trailing := (measure_trailing encode).
Local Abbreviation leading := (measure_leading encode).

Lemma len_nonneg {A : Type} (l : list A) : 0 <= len l.
Proof. unfold len. lia. Qed.

Lemma to_chunks_body_fits st sentence :
  current_tokens st + trailing sentence <= max_tokens ->
  body st sentence =
    Chunker (out st) (current_chunk st ++ [sentence]) (current_tokens st + trailing sentence).
Proof.
  intros H. unfold to_chunks_body, measure_trailing in *.
  destruct (Z.leb_spec (current_tokens st + len (encode (sentence +:+ " "))) max_tokens);
    [reflexivity | lia].
Qed.

Lemma to_chunks_body_closes st sentence :
  max_tokens < current_tokens st + trailing sentence ->
  body st sentence =
    Chunker (out st ++ [Row (current_chunk st) (join " " (current_chunk st)) (current_tokens st)])
            [sentence] (trailing sentence).
Proof.
  intros H. unfold to_chunks_body, measure_trailing in *.
  destruct (Z.leb_spec (current_tokens st + len (encode (sentence +:+ " "))) max_tokens);
    [lia | reflexivity].
Qed.

(** Case analysis on one iteration of the [to_chunks] loop. *)
Lemma to_chunks_body_cases st sentence :
  (current_tokens st + trailing sentence <= max_tokens /\
   body st sentence =
     Chunker (out st) (current_chunk st ++ [sentence]) (current_tokens st + trailing sentence))
  \/
  (max_tokens < current_tokens st + trailing sentence /\
   body st sentence =
     Chunker (out st ++ [Row (current_chunk st) (join " " (current_chunk st)) (current_tokens st)])
             [sentence] (trailing sentence)).
Proof.
  destruct (Z_le_gt_dec (current_tokens st + trailing sentence) max_tokens) as [H|H].
  - left. split; [exact H | apply to_chunks_body_fits, H].
  - right. split; [lia | apply to_chunks_body_closes; lia].
Qed.

(** A property of rows and of the running chunk that every iteration
    keeps carries over to the rows [to_chunks] returns. *)
Lemma to_chunks_rows_Forall (P : row -> Prop) (R : list string -> Z -> Prop) sequences :
  R [] 0 ->
  (forall c t, R c t -> P (Row c (join " " c) t)) ->
  (forall c t s, R c t -> t + trailing s <= max_tokens -> R (c ++ [s]) (t + trailing s)) ->
  (forall c t s, R c t -> max_tokens < t + trailing s -> R [s] (trailing s)) ->
  Forall P (to_chunks_rows encode max_tokens sequences).
Proof.
  intros R0 RP Rfit Rnew.
  assert (Hloop : Forall P (out (to_chunks_loop encode max_tokens sequences)) /\
                  R (current_chunk (to_chunks_loop encode max_tokens sequences))
                    (current_tokens (to_chunks_loop encode max_tokens sequences))).
  { unfold to_chunks_loop.
    apply (for_loop_invariant body
             (fun _ st => Forall P (out st) /\ R (current_chunk st) (current_tokens st))).
    - split; [constructor | exact R0].
    - intros done x st [Hout Hcur].
      destruct (to_chunks_body_cases st x) as [[Hle ->] | [Hgt ->]]; simpl.
      + split; [exact Hout | apply Rfit; assumption].
      + split; [| eapply Rnew; eassumption].
        apply Forall_app. split; [exact Hout|].
        constructor; [apply RP, Hcur | constructor]. }
  destruct Hloop as [Hout Hcur].
  unfold to_chunks_rows, to_chunks_flush.
  destruct (current_chunk (to_chunks_loop encode max_tokens sequences)) eqn:E.
  - exact Hout.
  - apply Forall_app. split; [exact Hout|].
    constructor; [apply RP, Hcur | constructor].
Qed.

(** The member lists of the rows of [to_chunks] are consecutive runs of
    the input: concatenated in order they give back the sentences. *)
Lemma to_chunks_members_partition sequences :
  concat (map members (to_chunks_rows encode max_tokens sequences)) = sequences.
Proof.
  assert (H : concat (map members (out (to_chunks_loop encode max_tokens sequences)))
              ++ current_chunk (to_chunks_loop encode max_tokens sequences) = sequences).
  { unfold to_chunks_loop.
    apply (for_loop_invariant body
             (fun done st => concat (map members (out st)) ++ current_chunk st = done)).
    - reflexivity.
    - intros done x st IH.
      destruct (to_chunks_body_cases st x) as [[_ ->] | [_ ->]]; simpl.
      + rewrite app_assoc, IH. reflexivity.
      + rewrite map_app, concat_app. simpl. rewrite app_nil_r, IH. reflexivity. }
  unfold to_chunks_rows, to_chunks_flush.
  destruct (current_chunk (to_chunks_loop encode max_tokens sequences)) eqn:E.
  - rewrite app_nil_r in H. exact H.
  - rewrite map_app, concat_app. simpl. rewrite app_nil_r. exact H.
Qed.

(** The running chunk is flushed: when the loop ends with a non-empty
    [current_chunk], the last row returned by [to_chunks] is that chunk. *)
Lemma to_chunks_flushes_running_chunk sequences :
  let st := to_chunks_loop encode max_tokens sequences in
  current_chunk st <> [] ->
  last (to_chunks_rows encode max_tokens sequences) =
    Some (Row (current_chunk st) (join " " (current_chunk st)) (current_tokens st)).
Proof.
  intros st Hne. unfold to_chunks_rows, to_chunks_flush. fold st.
  destruct (current_chunk st) eqn:E; [congruence|].
  apply last_snoc.
Qed.

(** In [to_chunks] with a budget that is not negative, a row over budget
    is a single sentence that is over budget on its own. *)
Lemma to_chunks_over_budget_single sequences :
  0 <= max_tokens ->
  Forall (fun r => max_tokens < row_tokens r ->
                   exists s, members r = [s] /\ max_tokens < trailing s)
         (to_chunks_rows encode max_tokens sequences).
Proof.
  intros Hmax.
  apply to_chunks_rows_Forall with
    (R := fun c t => (t <= max_tokens) \/ (exists s, c = [s] /\ max_tokens < trailing s /\ t = trailing s)).
  - left. exact Hmax.
  - intros c t [Hle | (s & -> & Hs & ->)] Hover; simpl in *; [lia|].
    exists s. split; [reflexivity | exact Hs].
  - intros c t s _ Hfit. left. exact Hfit.
  - intros c t s _ Hover.
    destruct (Z_le_gt_dec (trailing s) max_tokens) as [H|H]; [left; exact H|].
    right. exists s. repeat split; lia.
Qed.

(** In [to_chunks], a row of two or more sentences is within budget. *)
Lemma to_chunks_multi_within_budget sequences :
  Forall (fun r => (2 <= length (members r))%nat -> row_tokens r <= max_tokens)
         (to_chunks_rows encode max_tokens sequences).
Proof.
  apply to_chunks_rows_Forall with
    (R := fun c t => (2 <= length c)%nat -> t <= max_tokens).
  - simpl. lia.
  - intros c t H. exact H.
  - intros c t s _ Hfit _. exact Hfit.
  - intros c t s _ _. simpl. lia.
Qed.

(** *** naive_token_splitter *)

Lemma zip_measured (f : string -> Z) (l : list string) :
  zip l (map f l) = map (fun s => (s, f s)) l.
Proof. induction l as [|x l IH]; simpl; [reflexivity | f_equal; exact IH]. Qed.

Lemma fold_left_map {A B C : Type} (g : A -> C -> A) (h : B -> C) (l : list B) (a : A) :
  fold_left g (map h l) a = fold_left (fun a x => g a (h x)) l a.
Proof. revert a. induction l as [|x l IH]; intros a; simpl; [reflexivity | apply IH]. Qed.

Lemma splitter_loop_nstep sentences :
  splitter_loop encode max_tokens sentences = fold_left nstep sentences splitter_init.
Proof.
  unfold splitter_loop. rewrite zip_measured, fold_left_map. reflexivity.
Qed.

Local Ltac nstep_side :=
  solve [ lia | congruence | reflexivity
        | intros [? ?]; first [lia | congruence]
        | match goal with H : chunk _ = _ |- _ => rewrite H; reflexivity end
        | match goal with st : splitter |- _ => destruct st; simpl in *; subst; reflexivity end ].

(** Case analysis on one iteration of the [naive_token_splitter] loop:
    the running chunk is closed or not, then the sentence is skipped or
    appended. *)
Lemma nstep_cases st s :
  let closes := max_tokens < total_tokens st + leading s /\ chunk st <> [] in
  let st1 := Splitter (rows st ++ [Row (chunk st) (join ". " (chunk st) +:+ ".") (total_tokens st)]) [] 0 in
  (closes /\ max_tokens < leading s /\ nstep st s = st1) \/
  (closes /\ leading s <= max_tokens /\
     nstep st s = Splitter (rows st1) [s] (0 + (leading s + 1))) \/
  (~ closes /\ max_tokens < leading s /\ nstep st s = st) \/
  (~ closes /\ leading s <= max_tokens /\
     nstep st s = Splitter (rows st) (chunk st ++ [s]) (total_tokens st + (leading s + 1))).
Proof.
  intros closes st1. unfold splitter_step, splitter_body.
  destruct (Z.gtb_spec (total_tokens st + leading s) max_tokens) as [Hc|Hc];
    destruct (chunk st) as [|c0 cs] eqn:Ech; simpl;
    destruct (Z.gtb_spec (leading s) max_tokens) as [Hs|Hs]; subst closes st1.
  all: first [ left; repeat split; nstep_side
             | right; left; repeat split; nstep_side
             | right; right; left; repeat split; nstep_side
             | right; right; right; repeat split; nstep_side ].
Qed.

(** A property of rows and of the running chunk that every iteration
    keeps holds of the rows [naive_token_splitter] returns. *)
Lemma naive_rows_Forall (P : row -> Prop) (R : list string -> Z -> Prop) sentences :
  R [] 0 ->
  (forall c t, R c t -> c <> [] -> P (Row c (join ". " c +:+ ".") t)) ->
  (forall c t s, R c t -> leading s <= max_tokens ->
                 c = [] \/ t + leading s <= max_tokens ->
                 R (c ++ [s]) (t + (leading s + 1))) ->
  Forall P (naive_rows encode max_tokens sentences).
Proof.
  intros R0 RP Rapp. unfold naive_rows. rewrite splitter_loop_nstep.
  apply proj1 with (B := R (chunk (fold_left nstep sentences splitter_init))
                           (total_tokens (fold_left nstep sentences splitter_init))).
  apply (for_loop_invariant nstep
           (fun _ st => Forall P (rows st) /\ R (chunk st) (total_tokens st))).
  - split; [constructor | exact R0].
  - intros done s st [Hrows Hcur].
    destruct (nstep_cases st s)
      as [([_ Hne] & _ & ->) | [([_ Hne] & Hs & ->) | [(_ & _ & ->) | (Hno & Hs & ->)]]]; simpl.
    + split; [| exact R0].
      apply Forall_app. split; [exact Hrows | constructor; [apply RP; assumption | constructor]].
    + split.
      * apply Forall_app. split; [exact Hrows | constructor; [apply RP; assumption | constructor]].
      * apply (Rapp [] 0 s R0 Hs). left; reflexivity.
    + split; assumption.
    + split; [exact Hrows|]. apply Rapp; [exact Hcur | exact Hs |].
      destruct (chunk st) as [|c0 cs] eqn:E; [left; reflexivity|].
      right. destruct (Z_le_gt_dec (total_tokens st + leading s) max_tokens); [assumption|].
      exfalso. apply Hno. split; [lia | congruence].
Qed.

(** The member lists of the emitted rows followed by the running chunk are
    the sentences that are not over budget on their own, in order. *)
Lemma naive_members_partition sentences :
  let st := splitter_loop encode max_tokens sentences in
  concat (map members (rows st)) ++ chunk st =
    List.filter (fun s => negb (leading s >? max_tokens)) sentences.
Proof.
  simpl. rewrite splitter_loop_nstep.
  apply (for_loop_invariant nstep
           (fun done st => concat (map members (rows st)) ++ chunk st =
                           List.filter (fun s => negb (leading s >? max_tokens)) done)).
  - reflexivity.
  - intros done s st IH. rewrite List.filter_app. simpl.
    destruct (nstep_cases st s)
      as [(_ & Hs & ->) | [(_ & Hs & ->) | [(_ & Hs & ->) | (_ & Hs & ->)]]]; simpl;
      destruct (Z.gtb_spec (leading s) max_tokens); try lia; simpl.
    + rewrite !app_nil_r, map_app, concat_app. simpl. rewrite app_nil_r. exact IH.
    + rewrite map_app, concat_app. simpl. rewrite app_nil_r, IH. reflexivity.
    + rewrite app_nil_r. exact IH.
    + rewrite app_assoc, IH. reflexivity.
Qed.

End ChunkerFacts.

(** ** The chunkers against their description *)

Example naive_rows_example :
  naive_rows char_tokens 4 ["ab"; "cd"] = [Row ["ab"] "ab." 4].
Proof. reflexivity. Qed.

(** C1, as stated, fails for [naive_token_splitter]: with sentences "ab"
    and "cd", each measured at 3 tokens, and a budget of 4, the one row
    emitted has the single member "ab" and reports 4 tokens, not 3. *)
Lemma naive_tokens_not_sum_of_measured :
  ~ tokens_are_measured_sum char_tokens 4 ["ab"; "cd"].
Proof.
  intros [_ H]. inversion H as [|r l Hr _]; subst. vm_compute in Hr. discriminate.
Qed.

(** C1 (amended): every row emitted by [to_chunks] reports the sum of the
    counts measured for its member sentences, each measured with its
    trailing space; every row emitted by [naive_token_splitter] reports the
    sum over its member sentences of the count measured with a leading
    space plus one. *)
Theorem chunk_tokens_sum_of_increments :
  forall (encode : string -> list N) (max_tokens : Z) (sentences : list string),
    Forall (fun r => row_tokens r = total (map (measure_trailing encode) (members r)))
           (to_chunks_rows encode max_tokens sentences) /\
    Forall (fun r => row_tokens r =
                     total (map (fun s => measure_leading encode s + 1) (members r)))
           (naive_rows encode max_tokens sentences).
Proof.
  intros encode max_tokens sentences. split.
  - apply to_chunks_rows_Forall with
      (R := fun c t => t = total (map (measure_trailing encode) c)).
    + reflexivity.
    + intros c t ->. reflexivity.
    + intros c t s -> _. rewrite map_app, total_app. simpl. lia.
    + intros c t s _ _. simpl. lia.
  - apply naive_rows_Forall with
      (R := fun c t => t = total (map (fun s => measure_leading encode s + 1) c)).
    + reflexivity.
    + intros c t -> _. reflexivity.
    + intros c t s -> _ _. rewrite map_app, total_app. simpl. lia.
Qed.

(** C9, as stated, fails for [naive_token_splitter]: the row emitted for
    the member "ab" has text "ab.", not "ab". *)
Lemma naive_text_not_space_joined :
  ~ text_is_space_joined char_tokens 4 ["ab"; "cd"].
Proof.
  intros [_ H]. inversion H as [|r l Hr _]; subst. vm_compute in Hr. discriminate.
Qed.

(** C9 (amended): the text of every row of [to_chunks] is its member
    sentences joined by one space, the member lists being consecutive runs
    that together make up the input; the text of every row of
    [naive_token_splitter] is its member sentences joined by ". " with a
    final "." appended. *)
Theorem chunk_text_joined :
  forall (encode : string -> list N) (max_tokens : Z) (sentences : list string),
    (Forall (fun r => row_text r = join " " (members r))
            (to_chunks_rows encode max_tokens sentences) /\
     concat (map members (to_chunks_rows encode max_tokens sentences)) = sentences) /\
    Forall (fun r => row_text r = join ". " (members r) +:+ ".")
           (naive_rows encode max_tokens sentences).
Proof.
  intros encode max_tokens sentences. repeat split.
  - apply to_chunks_rows_Forall with (R := fun _ _ => True); auto.
  - apply to_chunks_members_partition.
  - apply naive_rows_Forall with (R := fun _ _ => True); auto.
Qed.

(** C2: [naive_token_splitter] has no step after its loop. With a single
    sentence that fits the budget, the loop ends with that sentence in the
    running chunk and the returned table has no row. *)
Theorem naive_token_splitter_drops_running_chunk :
  forall (encode : string -> list N) (sentence : string),
    let max_tokens := measure_leading encode sentence in
    chunk (splitter_loop encode max_tokens [sentence]) = [sentence] /\
    naive_rows encode max_tokens [sentence] = [].
Proof.
  intros encode sentence max_tokens. subst max_tokens.
  unfold naive_rows, splitter_loop. simpl.
  rewrite andb_false_r.
  destruct (Z.gtb_spec (measure_leading encode sentence) (measure_leading encode sentence));
    [lia | split; reflexivity].
Qed.

Example naive_token_splitter_one_sentence :
  naive_token_splitter char_tokens
    "The quick brown fox jumps over the lazy dog near the river bank" 500 50 = [].
Proof. vm_compute. reflexivity. Qed.

(** C3: [naive_token_splitter] tests the budget against the measured count
    but adds one more per sentence. With three sentences and a budget of
    the first two measured counts plus one, the row emitted holds two
    sentences and reports one token more than the budget. *)
Theorem naive_two_sentence_chunk_over_budget :
  forall (encode : string -> list N) (s1 s2 s3 : string),
    let max_tokens := measure_leading encode s1 + measure_leading encode s2 + 1 in
    naive_rows encode max_tokens [s1; s2; s3] =
      [Row [s1; s2] (join ". " [s1; s2] +:+ ".") (max_tokens + 1)].
Proof.
  intros encode s1 s2 s3 max_tokens.
  assert (Hmax : max_tokens = measure_leading encode s1 + measure_leading encode s2 + 1)
    by reflexivity.
  clearbody max_tokens.
  assert (H1 : 0 <= measure_leading encode s1) by apply len_nonneg.
  assert (H2 : 0 <= measure_leading encode s2) by apply len_nonneg.
  assert (H3 : 0 <= measure_leading encode s3) by apply len_nonneg.
  unfold naive_rows. rewrite splitter_loop_nstep. simpl fold_left.
  (* first sentence: appended to the empty running chunk *)
  destruct (nstep_cases encode max_tokens splitter_init s1)
    as [([_ Hne] & _) | [([_ Hne] & _) | [(_ & Hs & _) | (_ & _ & ->)]]];
    simpl in *; try congruence; try lia.
  (* second sentence: passes the test and is appended *)
  match goal with |- context [splitter_step _ _ ?st s2] =>
    destruct (nstep_cases encode max_tokens st s2)
      as [([Hc _] & _) | [([Hc _] & _) | [(_ & Hs & _) | (_ & _ & ->)]]];
      simpl in *; try lia
  end.
  (* third sentence: the running chunk is closed *)
  match goal with |- context [splitter_step _ _ ?st s3] =>
    destruct (nstep_cases encode max_tokens st s3)
      as [(_ & _ & ->) | [(_ & _ & ->) | [(Hno & _) | (Hno & _)]]];
      simpl in *;
      try (exfalso; apply Hno; split; [lia | discriminate])
  end.
  all: f_equal; f_equal; lia.
Qed.

Example naive_token_splitter_over_budget :
  naive_token_splitter char_tokens
    ("The quick brown fox jumps over the lazy dog near the river bank. " +:+
     "A second sentence follows it and is just as long as the first one. " +:+
     "The third sentence only serves to close the chunk made of the two.") 131 50 =
  [("The quick brown fox jumps over the lazy dog near the river bank. " +:+
    "A second sentence follows it and is just as long as the first one.", 132)].
Proof. vm_compute. reflexivity. Qed.

(** What [naive_token_splitter] does keep to: no row reports more than one
    token over the budget, and no row is empty. *)
Lemma naive_rows_budget_plus_one :
  forall (encode : string -> list N) (max_tokens : Z) (sentences : list string),
    Forall (fun r => row_tokens r <= max_tokens + 1 /\ members r <> [])
           (naive_rows encode max_tokens sentences).
Proof.
  intros encode max_tokens sentences.
  apply naive_rows_Forall with
    (R := fun c t => (c = [] /\ t = 0) \/ (c <> [] /\ t <= max_tokens + 1)).
  - left. split; reflexivity.
  - intros c t [[-> _] | [_ Ht]] Hne; [congruence|]. simpl. split; assumption.
  - intros c t s HR Hs Hfit. right. split; [destruct c; discriminate|].
    destruct HR as [[-> ->] | [Hne Ht]]; [lia|].
    destruct Hfit as [-> | Hfit]; [congruence | lia].
Qed.

(** C4: the branch of [to_chunks] that closes the running chunk does not
    test that the chunk is non-empty. When the first sentence alone is
    over budget, the first row returned has no member, empty text and a
    count of zero. *)
Theorem to_chunks_emits_empty_chunk :
  forall (encode : string -> list N) (sentence : string) (rest : list string),
    let max_tokens := measure_trailing encode sentence - 1 in
    head (to_chunks_rows encode max_tokens (sentence :: rest)) = Some (Row [] "" 0).
Proof.
  intros encode sentence rest max_tokens.
  assert (Hgrow : forall l st, exists more,
             out (fold_left (to_chunks_body encode max_tokens) l st) = out st ++ more).
  { induction l as [|x l IH]; intros st; simpl.
    - exists []. rewrite app_nil_r. reflexivity.
    - destruct (IH (to_chunks_body encode max_tokens st x)) as [more ->].
      destruct (to_chunks_body_cases encode max_tokens st x) as [[_ ->] | [_ ->]]; simpl.
      + eauto.
      + rewrite <- app_assoc. eauto. }
  unfold to_chunks_rows, to_chunks_loop. simpl fold_left.
  rewrite (to_chunks_body_closes encode max_tokens chunker_init sentence)
    by (subst max_tokens; simpl; lia).
  simpl.
  match goal with |- context [fold_left ?f rest ?st] =>
    destruct (Hgrow rest st) as [more Hmore]; simpl in Hmore;
    unfold to_chunks_flush; rewrite Hmore;
    destruct (current_chunk (fold_left f rest st)); reflexivity
  end.
Qed.

Example to_chunks_first_sentence_over_budget :
  map (fun r => (row_text r, row_tokens r))
      (to_chunks_rows char_tokens 5 ["The quick brown fox jumps over the lazy dog."]) =
    [("", 0); ("The quick brown fox jumps over the lazy dog.", 45)].
Proof. vm_compute. reflexivity. Qed.

(** ** The semantic grouper *)

Section GroupingFacts.

Variable Doc : Type.
Variable nlp : string -> Doc.
Variable doc_text : Doc -> string.
Variable similarity : Doc -> Doc -> float.
Variable threshold : float.

Local Abbreviation segments_of := (pivot_segments Doc nlp doc_text similarity threshold).
Local Abbreviation comparisons_of := (pivot_comparisons Doc nlp similarity threshold).
Local Abbreviation while_ := (group_while Doc doc_text similarity threshold).

(** The loop from any state it can be in: [seen] are the chunks before
    [end_idx], [candidates] the ones from [end_idx] on. With at least as
    many steps as candidates the loop ends by its own test, and what it
    leaves is what pivot grouping of the candidates adds to the state. *)
Lemma group_while_pivot (candidates : list string) :
  forall (seen : list string) (pivot : string) (st : grouping) (steps : nat),
    end_idx st = length seen ->
    (seen ++ candidates) !! start_idx st = Some pivot ->
    segment st <> [] ->
    (length candidates <= steps)%nat ->
    exists st',
      while_ (seen ++ candidates) (nlp <$> seen ++ candidates) steps st = Return st' /\
      group_flush st' =
        closed st ++ map (join " ") (segments_of pivot (segment st) candidates) /\
      compared st' =
        compared st ++ comparisons_of (start_idx st) (end_idx st) pivot candidates.
Proof.
  induction candidates as [|c rest IH]; intros seen pivot st steps Hend Hpivot Hseg Hsteps.
  - exists st. rewrite app_nil_r in *. repeat split.
    + destruct steps; simpl; rewrite length_fmap, Hend, Nat.ltb_irrefl; reflexivity.
    + unfold group_flush. simpl. destruct (segment st); [congruence | reflexivity].
    + simpl. rewrite app_nil_r. reflexivity.
  - destruct steps as [|steps]; [simpl in Hsteps; lia|].
    assert (Hlt : (end_idx st <? length (nlp <$> seen ++ c :: rest))%nat = true).
    { apply Nat.ltb_lt. rewrite length_fmap, length_app, Hend. simpl. lia. }
    assert (Hcand : (seen ++ c :: rest) !! end_idx st = Some c).
    { rewrite Hend. apply list_lookup_middle. reflexivity. }
    simpl group_while. rewrite Hlt. unfold group_body.
    rewrite !list_lookup_fmap, Hpivot, Hcand. simpl.
    replace (seen ++ c :: rest) with ((seen ++ [c]) ++ rest) in *
      by (rewrite <- app_assoc; reflexivity).
    destruct (PrimFloat.leb threshold (similarity (nlp pivot) (nlp c))) eqn:Hsim.
    + edestruct (IH (seen ++ [c]) pivot) as (st' & Hrun & Hflush & Hcmp);
        [ | | | | exists st'; split; [exact Hrun | split] ].
      * simpl. rewrite length_app, Hend. simpl. lia.
      * simpl. exact Hpivot.
      * simpl. destruct (segment st); discriminate.
      * simpl in Hsteps. lia.
      * rewrite Hflush. reflexivity.
      * rewrite Hcmp. simpl. rewrite <- app_assoc. reflexivity.
    + edestruct (IH (seen ++ [c]) c) as (st' & Hrun & Hflush & Hcmp);
        [ | | | | exists st'; split; [exact Hrun | split] ].
      * simpl. rewrite length_app, Hend. simpl. lia.
      * simpl. exact Hcand.
      * simpl. discriminate.
      * simpl in Hsteps. lia.
      * rewrite Hflush. simpl. rewrite <- app_assoc. reflexivity.
      * rewrite Hcmp. simpl. rewrite <- app_assoc. reflexivity.
Qed.

(** On a non-empty list of chunks [group_segments] returns, and returns
    pivot grouping from the first chunk. *)
Lemma group_segments_pivot (c0 : string) (rest : list string) :
  group_segments Doc nlp doc_text similarity threshold (c0 :: rest) =
    Return (map (join " ") (segments_of c0 [c0] rest),
            comparisons_of 0 1 c0 rest).
Proof.
  unfold group_segments. simpl lookup.
  destruct (group_while_pivot rest [c0] c0 (Grouping 0 1 [c0] [] []) (length (nlp <$> c0 :: rest)))
    as (st' & Hrun & Hflush & Hcmp); try reflexivity; try discriminate.
  - rewrite length_fmap. simpl. lia.
  - simpl in Hrun. simpl. rewrite Hrun, Hflush, Hcmp. reflexivity.
Qed.

End GroupingFacts.

Example group_segments_example :
  group_segments string id id toy_similarity 0.75%float ["a1"; "b1"; "c1"; "c2"] =
    Return (["a1 b1"; "c1 c2"], [(0, 1); (0, 2); (2, 3)]%nat).
Proof. vm_compute. reflexivity. Qed.

(** C5: on an empty list of chunks [group_by_semantics] raises
    [IndexError] at [self.chunks[start_idx]] instead of returning no
    segment; on a single chunk it returns that chunk as the one segment
    and compares nothing. *)
Theorem group_by_semantics_empty_raises :
  forall (encode : string -> list N) (Doc : Type) (nlp : string -> Doc)
         (sents : Doc -> list string) (doc_text : Doc -> string)
         (similarity : Doc -> Doc -> float)
         (max_tokens : Z) (threshold : float) (p : processor),
    snd (group_by_semantics encode Doc nlp sents doc_text similarity
           (Some (StrList [])) max_tokens threshold p) = Raise IndexError /\
    (forall c : string,
        group_segments Doc nlp doc_text similarity threshold [c] = Return ([c], [])).
Proof.
  intros. split.
  - unfold group_by_semantics, bind, get, set_chunks, set_n_tokens, ret, lift.
    destruct (nonempty (n_tokens p)); reflexivity.
  - intros c. reflexivity.
Qed.

(** C6: on a non-empty list of chunks the grouper returns the pivot
    grouping of the list: every comparison is between the chunk that
    opened the current segment and the candidate, the candidate joins the
    segment exactly when that score is at least the threshold, and
    otherwise it opens the next segment and becomes the pivot. The log of
    comparisons is the one of pivot grouping. *)
Theorem group_by_semantics_pivot :
  forall (encode : string -> list N) (Doc : Type) (nlp : string -> Doc)
         (sents : Doc -> list string) (doc_text : Doc -> string)
         (similarity : Doc -> Doc -> float)
         (max_tokens : Z) (threshold : float) (p : processor)
         (c0 : string) (rest : list string),
    group_segments Doc nlp doc_text similarity threshold (c0 :: rest) =
      Return (map (join " ") (pivot_segments Doc nlp doc_text similarity threshold c0 [c0] rest),
              pivot_comparisons Doc nlp similarity threshold 0 1 c0 rest) /\
    snd (group_by_semantics encode Doc nlp sents doc_text similarity
           (Some (StrList (c0 :: rest))) max_tokens threshold p) =
      Return (map (join " ") (pivot_segments Doc nlp doc_text similarity threshold c0 [c0] rest)).
Proof.
  intros. split; [apply group_segments_pivot|].
  unfold group_by_semantics, bind, get, set_chunks, set_n_tokens, set_segments, ret, lift.
  destruct (nonempty (n_tokens p)); simpl; rewrite group_segments_pivot; reflexivity.
Qed.

(** The candidate "c1" is close to its predecessor "b1" but not to the
    pivot "a1": it opens a new segment, and "b1" is never compared with
    it. *)
Example pivot_not_sliding :
  toy_similarity "b1" "c1" = 0.875%float /\
  group_segments string id id toy_similarity 0.75%float ["a1"; "b1"; "c1"] =
    Return (["a1 b1"; "c1"], [(0, 1); (0, 2)]%nat).
Proof. vm_compute. split; reflexivity. Qed.

(** C10: when [group_by_semantics] is given a list and [n_tokens] is not
    empty, [n_tokens] is left as it was while [chunks] becomes the list;
    [to_dataframe], when the two have the same length, pairs them row by
    row, whatever the token counts of the new chunks are. *)
Theorem group_by_semantics_keeps_stale_n_tokens :
  forall (encode : string -> list N) (Doc : Type) (nlp : string -> Doc)
         (sents : Doc -> list string) (doc_text : Doc -> string)
         (similarity : Doc -> Doc -> float)
         (max_tokens : Z) (threshold : float) (p : processor) (l : list string),
    n_tokens p <> [] ->
    let p' := fst (group_by_semantics encode Doc nlp sents doc_text similarity
                     (Some (StrList l)) max_tokens threshold p) in
    n_tokens p' = n_tokens p /\
    chunks p' = l /\
    (length l = length (n_tokens p) ->
     snd (to_dataframe encode Doc nlp sents doc_text similarity
            (Some (StrList l)) max_tokens threshold p) =
       Return (mkDataFrame (zip l (n_tokens p)) None)).
Proof.
  intros encode Doc nlp sents doc_text similarity max_tokens threshold p l Hne p'.
  subst p'.
  unfold to_dataframe, group_by_semantics, bind, get, set_chunks, set_n_tokens,
    set_segments, set_dataframe, ret, lift.
  destruct (n_tokens p) as [|n ns] eqn:En; [congruence|]. simpl.
  destruct l as [|c0 rest].
  - simpl. split; [exact En | split; [reflexivity | intros Hlen; discriminate Hlen]].
  - rewrite group_segments_pivot. simpl. split; [exact En | split; [reflexivity|]].
    intros Hlen. injection Hlen as Hlen. rewrite !En. simpl.
    rewrite Hlen, Nat.eqb_refl. reflexivity.
Qed.

(** A processor whose [n_tokens] comes from an earlier text: the row built
    for the new chunk "abc" carries the old count 34. *)
Lemma group_by_semantics_keeps_stale_n_tokens_witness :
  n_tokens stale_processor <> [] /\
  snd (to_dataframe char_tokens string id (fun _ => []) id toy_similarity
         (Some (StrList ["abc"])) 120 0.75%float stale_processor) =
    Return (mkDataFrame [("abc", 34)] None).
Proof.
  split; [discriminate|].
  apply (group_by_semantics_keeps_stale_n_tokens char_tokens string id (fun _ => []) id
           toy_similarity 120 0.75%float stale_processor ["abc"]);
    [discriminate | reflexivity].
Defined.

(** ** The embedding fetchers *)

Section FetchFacts.

Variable service : string -> nat -> exn + vector.
Variable c : client.

Local Abbreviation create := (create_embedding service c).

(** A request ends with a vector or with an exception. *)
Lemma request_finished (input : string) :
  forall r k, request service r k input <> Unfinished.
Proof.
  induction r as [|r IH]; intros k; simpl; destruct (service input k); try discriminate.
  apply IH.
Qed.

(** A request repeats a failed attempt no more often than the client's
    number of retries. *)
Lemma retries_made_bound (input : string) :
  forall r k, (retries_made service r k input <= r)%nat.
Proof.
  induction r as [|r IH]; intros k; simpl; destruct (service input k); try lia.
  specialize (IH (S k)). lia.
Qed.

Section AllAnswered.

(** Every request is answered, with [response input]. *)
Variable response : string -> vector.
Hypothesis answered : forall input, create input = Return (response input).

Lemma fetch_rows_answered (rows : list (string * Z)) :
  forall acc, fetch_rows service c rows acc = Return (acc ++ map (fun row => response (fst row)) rows).
Proof.
  induction rows as [|row rows IH]; intros acc; simpl.
  - rewrite app_nil_r. reflexivity.
  - rewrite answered, IH, <- app_assoc. reflexivity.
Qed.

(** Whatever the order of completion, each task that completes fills its
    own slot and no other. *)
Lemma gather_run_answered (inputs : list string) (completions : list nat) :
  forall slots,
  exists slots',
    gather_run service c inputs completions slots = Return slots' /\
    length slots' = length slots /\
    forall i input, inputs !! i = Some input ->
      slots' !! i = if bool_decide (i ∈ completions)
                    then (fun _ => Some (response input)) <$> slots !! i
                    else slots !! i.
Proof.
  induction completions as [|j rest IH]; intros slots; cbn [gather_run].
  - exists slots. split; [reflexivity | split; [reflexivity|]]. intros i input _.
    rewrite bool_decide_eq_false_2; [reflexivity | apply not_elem_of_nil].
  - destruct (inputs !! j) as [input_j|] eqn:Ej.
    + rewrite answered.
      destruct (IH (<[j:=Some (response input_j)]> slots)) as (slots' & Hrun & Hlen & Hfill).
      exists slots'. split; [exact Hrun|]. split; [rewrite Hlen; apply length_insert|].
      intros i input Hi. rewrite (Hfill i input Hi).
      destruct (decide (i = j)) as [->|Hij].
      * assert (input = input_j) by congruence. subst input.
        rewrite (bool_decide_eq_true_2 (j ∈ j :: rest)) by constructor.
        destruct (slots !! j) as [old|] eqn:Eold.
        -- rewrite list_lookup_insert_eq by (apply lookup_lt_Some in Eold; exact Eold).
           destruct (bool_decide (j ∈ rest)); reflexivity.
        -- rewrite list_insert_ge by (apply lookup_ge_None; exact Eold).
           rewrite Eold. destruct (bool_decide (j ∈ rest)); reflexivity.
      * rewrite list_lookup_insert_ne by congruence.
        destruct (decide (i ∈ rest)) as [Hin|Hnin].
        -- rewrite !bool_decide_eq_true_2; [reflexivity | right; exact Hin | exact Hin].
        -- rewrite !bool_decide_eq_false_2; [reflexivity | | exact Hnin].
           intros [->|Hin]%elem_of_cons; [congruence | contradiction].
    + destruct (IH slots) as (slots' & Hrun & Hlen & Hfill).
      exists slots'. split; [exact Hrun|]. split; [exact Hlen|].
      intros i input Hi. rewrite (Hfill i input Hi).
      assert (Hij : i <> j) by congruence.
      destruct (decide (i ∈ rest)) as [Hin|Hnin].
      * rewrite !bool_decide_eq_true_2; [reflexivity | right; exact Hin | exact Hin].
      * rewrite !bool_decide_eq_false_2; [reflexivity | | exact Hnin].
        intros [->|Hin]%elem_of_cons; [congruence | contradiction].
Qed.

Lemma collect_filled (vs : list vector) : collect (map Some vs) = Return vs.
Proof. induction vs as [|v vs IH]; simpl; [reflexivity | rewrite IH; reflexivity]. Qed.

(** When every task completes, [gather] returns the answers in task
    order. *)
Lemma gather_answered (schedule : nat -> list nat) (inputs : list string) :
  (forall n, schedule n ≡ₚ seq 0 n) ->
  gather service c schedule inputs = Return (map response inputs).
Proof.
  intros Hperm. unfold gather.
  destruct (gather_run_answered inputs (schedule (length inputs))
              (replicate (length inputs) None)) as (slots' & -> & Hlen & Hfill).
  rewrite length_replicate in Hlen.
  replace slots' with (map Some (map response inputs)); [apply collect_filled|].
  change (map Some (map response inputs)) with (Some <$> (response <$> inputs)).
  apply list_eq. intros i.
  destruct (inputs !! i) as [input|] eqn:Ei.
  - rewrite (Hfill i input Ei).
    assert (Hi : (i < length inputs)%nat) by (apply lookup_lt_Some in Ei; exact Ei).
    rewrite bool_decide_eq_true_2.
    + rewrite lookup_replicate_2 by exact Hi. simpl.
      rewrite !list_lookup_fmap, Ei. reflexivity.
    + rewrite (Hperm (length inputs)). apply elem_of_seq. lia.
  - apply lookup_ge_None in Ei.
    rewrite !(proj2 (lookup_ge_None _ _)); [reflexivity | lia |].
    rewrite !length_fmap. exact Ei.
Qed.

End AllAnswered.

(** One failed request makes the sequential loop raise. *)
Lemma fetch_rows_raises (rows : list (string * Z)) :
  Exists (fun row => exists e, create (fst row) = Raise e) rows ->
  forall acc, exists e, fetch_rows service c rows acc = Raise e.
Proof.
  induction 1 as [row rows [e He] | row rows _ IH]; intros acc; simpl.
  - rewrite He. eauto.
  - destruct (create (fst row)) as [v|e|] eqn:E; [apply IH | eauto |].
    exfalso. exact (request_finished _ _ _ E).
Qed.

(** One failed request makes [gather] raise, whatever the order of
    completion, as long as the failing task completes. *)
Lemma gather_run_raises (inputs : list string) (i : nat) (input : string) (e : exn) :
  inputs !! i = Some input ->
  create input = Raise e ->
  forall completions slots,
    i ∈ completions ->
    exists e', gather_run service c inputs completions slots = Raise e'.
Proof.
  intros Hi He. induction completions as [|j rest IH]; intros slots Hin.
  - apply elem_of_nil in Hin. contradiction.
  - simpl. destruct (decide (j = i)) as [->|Hji].
    + rewrite Hi, He. eauto.
    + assert (Hrest : i ∈ rest).
      { apply elem_of_cons in Hin. destruct Hin; [congruence | assumption]. }
      destruct (inputs !! j) as [input_j|]; [|apply IH, Hrest].
      destruct (create input_j) as [v|e'|] eqn:E; [apply IH, Hrest | eauto |].
      exfalso. exact (request_finished _ _ _ E).
Qed.

End FetchFacts.

(** Methods that continue alike are alike. *)
Lemma bind_ext {A B : Type} (m : M A) (k1 k2 : A -> M B) (p : processor) :
  (forall a p1, k1 a p1 = k2 a p1) -> bind m k1 p = bind m k2 p.
Proof.
  intros H. unfold bind. destruct (m p) as [p1 [a|e|]]; [apply H | reflexivity | reflexivity].
Qed.

(** The part of the two fetchers after the table is in place gives the
    same processor and the same table when every request is answered. *)
Lemma fetch_tails_agree
    (DEFAULT : nat) (service : string -> nat -> exn + vector)
    (response : string -> vector) (schedule : nat -> list nat) (p : processor) :
  (forall n, schedule n ≡ₚ seq 0 n) ->
  (forall input, create_embedding service (OpenAI DEFAULT None) input = Return (response input)) ->
  (forall input, create_embedding service (AsyncOpenAI DEFAULT (Some 1%nat)) input =
                 Return (response input)) ->
  gather service (AsyncOpenAI DEFAULT (Some 1%nat)) schedule (map fst (records (dataframe p))) =
    Return (map (fun row => response (fst row)) (records (dataframe p))) /\
  fetch_rows service (OpenAI DEFAULT None) (records (dataframe p)) [] =
    Return (map (fun row => response (fst row)) (records (dataframe p))).
Proof.
  intros Hperm Hsync Hasync. split.
  - rewrite (gather_answered service _ response Hasync schedule _ Hperm).
    rewrite map_map. reflexivity.
  - rewrite (fetch_rows_answered service _ response Hsync). reflexivity.
Qed.

(** C7: when every task of the concurrent fetcher completes, in whatever
    order, and both clients answer each text with the same vector, the
    two fetchers leave the same processor and return the same table, for
    every call that is not given a table as [data]; called on the
    processor's table, the result keeps the rows in order and holds, in
    each row, the vector answered for that row's text. *)
Theorem async_embeddings_eq_embeddings :
  forall (encode : string -> list N) (Doc : Type) (nlp : string -> Doc)
         (sents : Doc -> list string) (doc_text : Doc -> string)
         (similarity : Doc -> Doc -> float)
         (DEFAULT : nat) (service : string -> nat -> exn + vector)
         (response : string -> vector) (schedule : nat -> list nat)
         (d : option data) (max_tokens : Z) (threshold : float) (p : processor),
    (forall n, schedule n ≡ₚ seq 0 n) ->
    (forall input,
        create_embedding service (OpenAI DEFAULT None) input = Return (response input)) ->
    (forall input,
        create_embedding service (AsyncOpenAI DEFAULT (Some 1%nat)) input =
          Return (response input)) ->
    (forall df, d <> Some (Frame df)) ->
    async_embeddings encode Doc nlp sents doc_text similarity DEFAULT service
      schedule d max_tokens threshold p =
    embeddings encode Doc nlp sents doc_text similarity DEFAULT service
      d max_tokens threshold p /\
    let fetched :=
      mkDataFrame (records (dataframe p))
                  (Some (map (fun row => response (fst row)) (records (dataframe p)))) in
    embeddings encode Doc nlp sents doc_text similarity DEFAULT service
      None max_tokens threshold p =
    (Processor (text p) (sequences p) (chunks p) (n_tokens p) (segments p) fetched,
     Return fetched).
Proof.
  intros encode Doc nlp sents doc_text similarity DEFAULT service response schedule
         d max_tokens threshold p Hperm Hsync Hasync Hframe.
  assert (Htail : forall p1 : processor,
    bind get (fun p0 =>
      bind (lift (gather service (AsyncOpenAI DEFAULT (Some 1%nat)) schedule
                         (map fst (records (dataframe p0)))))
           (fun values => bind (assign_embeddings values)
                               (fun _ => bind get (fun p2 => ret (dataframe p2))))) p1 =
    bind get (fun p0 =>
      bind (lift (fetch_rows service (OpenAI DEFAULT None) (records (dataframe p0)) []))
           (fun values => bind (assign_embeddings values)
                               (fun _ => bind get (fun p2 => ret (dataframe p2))))) p1).
  { intros p1.
    destruct (fetch_tails_agree DEFAULT service response schedule p1 Hperm Hsync Hasync)
      as [Hg Hf].
    unfold bind at 1 3. unfold get. unfold bind at 1 3. unfold lift.
    rewrite Hg, Hf. reflexivity. }
  split.
  - unfold async_embeddings, embeddings.
    destruct d as [[s|l|df]|];
      [ | | exfalso; exact (Hframe df eq_refl) | ];
      apply bind_ext; intros _ p1; apply Htail.
  - intros fetched. unfold embeddings.
    destruct (fetch_tails_agree DEFAULT service response schedule p Hperm Hsync Hasync)
      as [_ Hf].
    unfold bind, get, lift, ret, assign_embeddings, set_dataframe.
    rewrite Hf. reflexivity.
Qed.

(** The tasks finishing in the reverse of the order they were started in:
    the two fetchers still agree. *)
Lemma async_embeddings_eq_embeddings_witness :
  async_embeddings char_tokens string id (fun _ => []) id toy_similarity 2 toy_service
    (fun n => rev (seq 0 n)) None 120 0.75%float fetch_processor =
  embeddings char_tokens string id (fun _ => []) id toy_similarity 2 toy_service
    None 120 0.75%float fetch_processor /\
  snd (embeddings char_tokens string id (fun _ => []) id toy_similarity 2 toy_service
         None 120 0.75%float fetch_processor) =
    Return (mkDataFrame [("a b", 2); ("m n", 2); ("z", 1)]
                        (Some [[0.125%float]; [0.875%float]; [0.125%float]])).
Proof.
  destruct (async_embeddings_eq_embeddings char_tokens string id (fun _ => []) id
              toy_similarity 2 toy_service toy_response (fun n => rev (seq 0 n))
              None 120 0.75%float fetch_processor) as [Heq Hval].
  - intros n. symmetry. apply Permutation_rev.
  - intros input. reflexivity.
  - intros input. reflexivity.
  - intros df. discriminate.
  - split; [exact Heq|]. simpl in Hval. rewrite Hval. reflexivity.
Defined.

(** In either mode a request that ends in an exception ends the whole
    fetch in an exception, and the processor's table is left without the
    embedding column. *)
Lemma embeddings_aborts
    (encode : string -> list N) (Doc : Type) (nlp : string -> Doc)
    (sents : Doc -> list string) (doc_text : Doc -> string)
    (similarity : Doc -> Doc -> float)
    (DEFAULT : nat) (service : string -> nat -> exn + vector)
    (max_tokens : Z) (threshold : float) (p : processor) (row : string * Z) (e : exn) :
  row ∈ records (dataframe p) ->
  create_embedding service (OpenAI DEFAULT None) (fst row) = Raise e ->
  exists e', embeddings encode Doc nlp sents doc_text similarity DEFAULT service
               None max_tokens threshold p = (p, Raise e').
Proof.
  intros Hin He.
  destruct (fetch_rows_raises service (OpenAI DEFAULT None) (records (dataframe p))) with (acc := @nil vector)
    as [e' He'].
  { apply Exists_exists. exists row. split; [exact Hin | eauto]. }
  exists e'. unfold embeddings, bind, get, lift, ret. rewrite He'. reflexivity.
Qed.

(** The same for the concurrent fetcher, whatever the order in which the
    tasks complete. *)
Lemma async_embeddings_aborts
    (encode : string -> list N) (Doc : Type) (nlp : string -> Doc)
    (sents : Doc -> list string) (doc_text : Doc -> string)
    (similarity : Doc -> Doc -> float)
    (DEFAULT : nat) (service : string -> nat -> exn + vector)
    (schedule : nat -> list nat)
    (max_tokens : Z) (threshold : float) (p : processor) (row : string * Z) (e : exn) :
  (forall n, schedule n ≡ₚ seq 0 n) ->
  row ∈ records (dataframe p) ->
  create_embedding service (AsyncOpenAI DEFAULT (Some 1%nat)) (fst row) = Raise e ->
  exists e', async_embeddings encode Doc nlp sents doc_text similarity DEFAULT service
               schedule None max_tokens threshold p = (p, Raise e').
Proof.
  intros Hperm Hin He.
  apply list_elem_of_lookup in Hin as [i Hi].
  assert (Hinput : map fst (records (dataframe p)) !! i = Some (fst row)).
  { change (map fst (records (dataframe p))) with (fst <$> records (dataframe p)).
    rewrite list_lookup_fmap, Hi. reflexivity. }
  destruct (gather_run_raises service (AsyncOpenAI DEFAULT (Some 1%nat))
              (map fst (records (dataframe p))) i (fst row) e Hinput He
              (schedule (length (map fst (records (dataframe p)))))
              (replicate (length (map fst (records (dataframe p)))) None))
    as [e' He'].
  { rewrite (Hperm _). apply elem_of_seq. apply lookup_lt_Some in Hinput. lia. }
  exists e'. unfold async_embeddings, bind, get, lift, ret, gather. rewrite He'. reflexivity.
Qed.

Lemma retries_made_down (input : string) :
  forall r k, retries_made service_down r k input = r.
Proof. induction r as [|r IH]; intros k; simpl; [reflexivity | rewrite IH; reflexivity]. Qed.

(** C8: [embeddings] builds its client without [max_retries], so a failing
    request is repeated as often as the package default says, while
    [async_embeddings] passes [max_retries=1] and repeats it once. *)
Theorem embeddings_retries_follow_client_default :
  forall (DEFAULT : nat) (input : string),
    retries_made service_down (max_retries (OpenAI DEFAULT None)) 0 input = DEFAULT /\
    retries_made service_down (max_retries (AsyncOpenAI DEFAULT (Some 1%nat))) 0 input = 1%nat.
Proof.
  intros DEFAULT input. split; apply retries_made_down.
Qed.

(** With a package default of two retries, the sequential fetcher gets its
    vectors from the flaky service after two retries per request; the
    concurrent one gives up after one. *)
Example embeddings_two_retries :
  retries_made service_flaky (max_retries (OpenAI 2 None)) 0 "a b" = 2%nat /\
  snd (embeddings char_tokens string id (fun _ => []) id toy_similarity 2 service_flaky
         None 120 0.75%float fetch_processor) =
    Return (mkDataFrame [("a b", 2); ("m n", 2); ("z", 1)]
                        (Some [[0.125%float]; [0.875%float]; [0.125%float]])) /\
  async_embeddings char_tokens string id (fun _ => []) id toy_similarity 2 service_flaky
    (fun n => seq 0 n) None 120 0.75%float fetch_processor =
    (fetch_processor, Raise (ProviderError "timeout")).
Proof. vm_compute. repeat split; reflexivity. Qed.

(** Given a table as [data], the two fetchers part ways: [embeddings]
    leaves it aside and fetches for the processor's own table, while
    [async_embeddings] hands it to [to_dataframe] and on to the parser,
    which raises. *)
Example fetchers_given_a_table :
  snd (embeddings char_tokens string id (fun _ => []) id toy_similarity 2 toy_service
         (Some (Frame (mkDataFrame [("q", 1)] None))) 120 0.75%float fetch_processor) =
    Return (mkDataFrame [("a b", 2); ("m n", 2); ("z", 1)]
                        (Some [[0.125%float]; [0.875%float]; [0.125%float]])) /\
  snd (async_embeddings char_tokens string id (fun _ => []) id toy_similarity 2 toy_service
         (fun n => seq 0 n) (Some (Frame (mkDataFrame [("q", 1)] None))) 120 0.75%float
         fetch_processor) =
    Raise ValueError.
Proof. vm_compute. split; reflexivity. Qed.

(** * Part III: further facts *)

(** ** naive_split *)

(** One step of [text.split(". ")]: the separator is taken when the next
    two characters are a period and a space, and only then. *)
Lemma split_dot_space_cons (acc : string) (c : ascii) (s : string) :
  split_dot_space acc (String c s) =
    match s with
    | String d rest =>
        if Ascii.eqb c "." && Ascii.eqb d " " then acc :: split_dot_space "" rest
        else split_dot_space (acc +:+ String c "") s
    | EmptyString => [acc +:+ String c ""]
    end.
Proof.
  destruct s as [|d rest].
  - destruct c as [[] [] [] [] [] [] [] []]; reflexivity.
  - destruct c as [[] [] [] [] [] [] [] []]; try reflexivity.
    destruct d as [[] [] [] [] [] [] [] []]; reflexivity.
Qed.

Lemma split_dot_space_nonempty (s : string) :
  forall acc, split_dot_space acc s <> [].
Proof.
  assert (H : (forall acc, split_dot_space acc s <> []) /\
              (forall acc c, split_dot_space acc (String c s) <> [])).
  { induction s as [|d rest [IH1 IH2]]; (split; [|intros acc c; rewrite split_dot_space_cons]).
    - discriminate.
    - discriminate.
    - intros acc. apply IH2.
    - destruct (Ascii.eqb c "." && Ascii.eqb d " "); [discriminate | apply IH2]. }
  apply H.
Qed.

Lemma join_cons (sep x : string) (l : list string) :
  l <> [] -> join sep (x :: l) = x +:+ sep +:+ join sep l.
Proof. destruct l; [congruence | reflexivity]. Qed.

Lemma append_assoc (a b c : string) : (a +:+ b) +:+ c = a +:+ (b +:+ c).
Proof.
  induction a as [|x a IH]; [reflexivity|].
  change (String x ((a +:+ b) +:+ c) = String x (a +:+ (b +:+ c))).
  f_equal. exact IH.
Qed.

Lemma append_nil_r (a : string) : a +:+ "" = a.
Proof.
  induction a as [|x a IH]; [reflexivity|].
  change (String x (a +:+ "") = String x a). f_equal. exact IH.
Qed.

(** Joining the pieces of [text.split(". ")] with ". " gives the text
    back. *)
Lemma split_dot_space_join (s : string) :
  forall acc, join ". " (split_dot_space acc s) = acc +:+ s.
Proof.
  assert (H : (forall acc, join ". " (split_dot_space acc s) = acc +:+ s) /\
              (forall acc c, join ". " (split_dot_space acc (String c s)) = acc +:+ String c s)).
  { induction s as [|d rest [IH1 IH2]]; (split; [|intros acc c; rewrite split_dot_space_cons]).
    - intros acc. rewrite append_nil_r. reflexivity.
    - reflexivity.
    - intros acc. apply IH2.
    - destruct (Ascii.eqb c ".") eqn:Ec; destruct (Ascii.eqb d " ") eqn:Ed; simpl andb; cbv iota.
      + apply Ascii.eqb_eq in Ec, Ed. subst c d.
        rewrite join_cons by apply split_dot_space_nonempty.
        rewrite IH1. reflexivity.
      + rewrite IH2, append_assoc. reflexivity.
      + rewrite IH2, append_assoc. reflexivity.
      + rewrite IH2, append_assoc. reflexivity. }
  apply H.
Qed.

(** [naive_split] cuts the text at ". " and nowhere else: the pieces,
    joined with ". ", are the text. *)
Theorem naive_split_pieces_join (text : string) :
  join ". " (split_dot_space "" text) = text.
Proof. apply (split_dot_space_join text ""). Qed.

(** ** to_chunks: further invariants *)

Lemma total_measures_nonneg (f : string -> Z) (l : list string) :
  (forall s, 0 <= f s) -> 0 <= total (map f l).
Proof.
  intros Hf. induction l as [|x l IH]; simpl; [lia | specialize (Hf x); lia].
Qed.

(** When the counts of all the sentences together are within the budget,
    [to_chunks] gives one chunk holding all of them. *)
Theorem to_chunks_all_fit :
  forall (encode : string -> list N) (max_tokens : Z) (sequences : list string),
    sequences <> [] ->
    total (map (measure_trailing encode) sequences) <= max_tokens ->
    to_chunks_rows encode max_tokens sequences =
      [Row sequences (join " " sequences) (total (map (measure_trailing encode) sequences))].
Proof.
  intros encode max_tokens sequences Hne Hfit.
  assert (Hloop : to_chunks_loop encode max_tokens sequences =
                  Chunker [] sequences (total (map (measure_trailing encode) sequences))).
  { revert Hfit. unfold to_chunks_loop.
    apply (for_loop_invariant (to_chunks_body encode max_tokens)
             (fun done st => total (map (measure_trailing encode) done) <= max_tokens ->
                             st = Chunker [] done (total (map (measure_trailing encode) done)))).
    - reflexivity.
    - intros done x st IH Hle. rewrite map_app, total_app in *. simpl in *.
      pose proof (len_nonneg (encode (x +:+ " "))) as Hx. fold (measure_trailing encode x) in Hx.
      rewrite IH by lia.
      rewrite to_chunks_body_fits by (simpl; lia). simpl. f_equal. lia. }
  unfold to_chunks_rows, to_chunks_flush. rewrite Hloop. simpl.
  destruct sequences; [congruence | reflexivity].
Qed.

Lemma to_chunks_all_fit_witness :
  to_chunks_rows char_tokens 12 ["ab"; "cd"; "efg"] = [Row ["ab"; "cd"; "efg"] "ab cd efg" 10].
Proof.
  apply (to_chunks_all_fit char_tokens 12 ["ab"; "cd"; "efg"]); [discriminate | vm_compute; discriminate].
Defined.

(** Only the first chunk of [to_chunks] can be empty: every row after the
    first has at least one sentence. *)
Theorem to_chunks_empty_only_first :
  forall (encode : string -> list N) (max_tokens : Z) (sequences : list string),
    Forall (fun r => members r <> []) (tail (to_chunks_rows encode max_tokens sequences)).
Proof.
  intros encode max_tokens sequences.
  assert (Hsnoc : forall (l : list row) (r : row),
             Forall (fun r => members r <> []) (tail l) ->
             (l <> [] -> members r <> []) ->
             Forall (fun r => members r <> []) (tail (l ++ [r]))).
  { intros [|r0 l] r Hl Hr; simpl in *; [constructor|].
    apply Forall_app. split; [exact Hl | constructor; [apply Hr; discriminate | constructor]]. }
  assert (Hloop : Forall (fun r => members r <> [])
                         (tail (out (to_chunks_loop encode max_tokens sequences))) /\
                  (out (to_chunks_loop encode max_tokens sequences) <> [] ->
                   current_chunk (to_chunks_loop encode max_tokens sequences) <> [])).
  { unfold to_chunks_loop.
    apply (for_loop_invariant (to_chunks_body encode max_tokens)
             (fun _ st => Forall (fun r => members r <> []) (tail (out st)) /\
                          (out st <> [] -> current_chunk st <> []))).
    - simpl. split; [constructor | congruence].
    - intros done x st [Hout Hcur].
      destruct (to_chunks_body_cases encode max_tokens st x) as [[_ ->] | [_ ->]]; simpl.
      + split; [exact Hout|]. intros _. destruct (current_chunk st); discriminate.
      + split; [apply Hsnoc; assumption | discriminate]. }
  destruct Hloop as [Hout Hcur].
  unfold to_chunks_rows, to_chunks_flush.
  destruct (current_chunk (to_chunks_loop encode max_tokens sequences)) eqn:E;
    [exact Hout|].
  apply Hsnoc; [exact Hout | simpl; discriminate].
Qed.

(** [to_chunks] is greedy: a chunk is closed only because the sentence
    that opens the next chunk would have taken it over the budget. *)
Theorem to_chunks_greedy :
  forall (encode : string -> list N) (max_tokens : Z) (sequences : list string)
         (before after : list row) (r r' : row),
    to_chunks_rows encode max_tokens sequences = before ++ r :: r' :: after ->
    exists s, head (members r') = Some s /\
              max_tokens < row_tokens r + measure_trailing encode s.
Proof.
  intros encode max_tokens sequences.
  set (adjacent := fun (l : list row) =>
         forall before after r r', l = before ++ r :: r' :: after ->
           exists s, head (members r') = Some s /\
                     max_tokens < row_tokens r + measure_trailing encode s).
  set (pending := fun (l : list row) (c : list string) =>
         forall before r, l = before ++ [r] ->
           exists s, head c = Some s /\
                     max_tokens < row_tokens r + measure_trailing encode s).
  assert (Hsnoc : forall l c t,
             adjacent l -> pending l c ->
             adjacent (l ++ [Row c (join " " c) t])).
  { intros l c t Hadj Hpend before after r r' Heq.
    destruct after as [|a after] using rev_ind.
    - replace (before ++ [r; r']) with ((before ++ [r]) ++ [r']) in Heq
        by (rewrite <- app_assoc; reflexivity).
      apply app_inj_tail in Heq as [Hl <-]. simpl. exact (Hpend before r Hl).
    - clear IHafter.
      replace (before ++ r :: r' :: after ++ [a]) with ((before ++ r :: r' :: after) ++ [a]) in Heq
        by (rewrite <- app_assoc; reflexivity).
      apply app_inj_tail in Heq as [Hl _]. exact (Hadj before after r r' Hl). }
  assert (Hloop : adjacent (out (to_chunks_loop encode max_tokens sequences)) /\
                  pending (out (to_chunks_loop encode max_tokens sequences))
                          (current_chunk (to_chunks_loop encode max_tokens sequences))).
  { unfold to_chunks_loop.
    apply (for_loop_invariant (to_chunks_body encode max_tokens)
             (fun _ st => adjacent (out st) /\ pending (out st) (current_chunk st))).
    - split.
      + intros before after r r' Heq. destruct before; discriminate.
      + intros before r Heq. destruct before; discriminate.
    - intros done x st [Hadj Hpend].
      destruct (to_chunks_body_cases encode max_tokens st x) as [[_ ->] | [Hover ->]]; simpl.
      + split; [exact Hadj|].
        intros before r Heq. destruct (Hpend before r Heq) as (s & Hs & Hlt).
        exists s. split; [|exact Hlt].
        destruct (current_chunk st); [discriminate | exact Hs].
      + split; [apply Hsnoc; assumption|].
        intros before r Heq. apply app_inj_tail in Heq as [_ <-]. simpl.
        exists x. split; [reflexivity | exact Hover]. }
  destruct Hloop as [Hadj Hpend].
  unfold to_chunks_rows, to_chunks_flush.
  destruct (current_chunk (to_chunks_loop encode max_tokens sequences)) eqn:E.
  - intros before after r r' Heq. exact (Hadj before after r r' Heq).
  - intros before after r r' Heq.
    exact (Hsnoc _ _ _ Hadj Hpend before after r r' Heq).
Qed.

Lemma to_chunks_greedy_witness :
  exists s, head (members (Row ["efghi"; "j"] "efghi j" 8)) = Some s /\
            8 < row_tokens (Row ["ab"; "cd"] "ab cd" 6) + measure_trailing char_tokens s.
Proof.
  apply (to_chunks_greedy char_tokens 8 ["ab"; "cd"; "efghi"; "j"] [] []
           (Row ["ab"; "cd"] "ab cd" 6) (Row ["efghi"; "j"] "efghi j" 8)).
  reflexivity.
Defined.

Lemma to_chunks_over_budget_single_witness :
  Forall (fun r => 5 < row_tokens r ->
                   exists s, members r = [s] /\ 5 < measure_trailing char_tokens s)
         (to_chunks_rows char_tokens 5 ["ab"; "cdefghi"; "j"]).
Proof.
  apply (to_chunks_over_budget_single char_tokens 5 ["ab"; "cdefghi"; "j"]). lia.
Defined.

(** [to_chunks] neither loses nor adds tokens: the counts of the chunks
    add up to the counts of the sentences. *)
Theorem to_chunks_tokens_conserved :
  forall (encode : string -> list N) (max_tokens : Z) (sequences : list string),
    total (map row_tokens (to_chunks_rows encode max_tokens sequences)) =
    total (map (measure_trailing encode) sequences).
Proof.
  intros encode max_tokens sequences.
  assert (Hsum : Forall (fun r => row_tokens r = total (map (measure_trailing encode) (members r)))
                        (to_chunks_rows encode max_tokens sequences)).
  { apply to_chunks_rows_Forall with
      (R := fun c t => t = total (map (measure_trailing encode) c)).
    - reflexivity.
    - intros c t ->. reflexivity.
    - intros c t s -> _. rewrite map_app, total_app. simpl. lia.
    - intros c t s _ _. simpl. lia. }
  rewrite <- (to_chunks_members_partition encode max_tokens sequences) at 2.
  induction Hsum as [|r rows Hr _ IH]; simpl; [reflexivity|].
  rewrite map_app, total_app, IH, Hr. reflexivity.
Qed.

(** ** naive_token_splitter: further invariants *)

(** When the sentences all fit in one chunk, the loop of
    [naive_token_splitter] only appends. *)
Lemma splitter_loop_one_chunk
    (encode : string -> list N) (max_tokens : Z) (sentences : list string) :
  total (map (fun s => measure_leading encode s + 1) sentences) <= max_tokens + 1 ->
  splitter_loop encode max_tokens sentences =
    Splitter [] sentences (total (map (fun s => measure_leading encode s + 1) sentences)).
Proof.
  set (w := fun s => measure_leading encode s + 1) in *.
  assert (Hw : forall s, 0 <= w s).
  { intros s. unfold w, measure_leading. pose proof (len_nonneg (encode (" " +:+ s))). lia. }
  rewrite splitter_loop_nstep.
  apply (for_loop_invariant (splitter_step encode max_tokens)
           (fun done st => total (map w done) <= max_tokens + 1 ->
                           st = Splitter [] done (total (map w done)))).
  - reflexivity.
  - intros done s st IH Hle. rewrite map_app, total_app in *. simpl in *.
    pose proof (total_measures_nonneg w done Hw) as Hdone.
    pose proof (Hw s) as Hs.
    assert (Hms : 0 <= measure_leading encode s) by apply len_nonneg.
    assert (Hws : w s = measure_leading encode s + 1) by reflexivity.
    rewrite IH by lia. clear IH.
    destruct (nstep_cases encode max_tokens (Splitter [] done (total (map w done))) s)
      as [([Hc _] & _) | [([Hc _] & _) | [(_ & Hover & _) | (_ & _ & ->)]]];
      simpl in *; try lia.
    f_equal. lia.
Qed.

(** When the sentences all fit in one chunk, [naive_token_splitter] never
    closes it: the loop ends with every sentence in the running chunk and
    the table has no row. *)
Theorem naive_rows_one_chunk_lost :
  forall (encode : string -> list N) (max_tokens : Z) (sentences : list string),
    total (map (fun s => measure_leading encode s + 1) sentences) <= max_tokens + 1 ->
    naive_rows encode max_tokens sentences = [] /\
    chunk (splitter_loop encode max_tokens sentences) = sentences.
Proof.
  intros encode max_tokens sentences Hfit.
  unfold naive_rows. rewrite (splitter_loop_one_chunk encode max_tokens sentences Hfit).
  split; reflexivity.
Qed.

Lemma naive_rows_one_chunk_lost_witness :
  naive_rows char_tokens 500 ["first sentence"; "second sentence"; "third"] = [] /\
  chunk (splitter_loop char_tokens 500 ["first sentence"; "second sentence"; "third"]) =
    ["first sentence"; "second sentence"; "third"].
Proof.
  apply (naive_rows_one_chunk_lost char_tokens 500
           ["first sentence"; "second sentence"; "third"]).
  vm_compute. discriminate.
Defined.

(** A sentence that is over the budget on its own is in no chunk of
    [naive_token_splitter]. *)
Theorem naive_rows_skip_oversized :
  forall (encode : string -> list N) (max_tokens : Z) (sentences : list string),
    Forall (fun r => Forall (fun s => measure_leading encode s <= max_tokens) (members r))
           (naive_rows encode max_tokens sentences).
Proof.
  intros encode max_tokens sentences.
  apply naive_rows_Forall with
    (R := fun c (_ : Z) => Forall (fun s => measure_leading encode s <= max_tokens) c).
  - constructor.
  - intros c t Hc _. exact Hc.
  - intros c t s Hc Hs _. apply Forall_app. split; [exact Hc | constructor; [exact Hs | constructor]].
Qed.

(** ** The semantic grouper: further facts *)

Section GroupingMore.

Variable Doc : Type.
Variable nlp : string -> Doc.
Variable doc_text : Doc -> string.
Variable similarity : Doc -> Doc -> float.
Variable threshold : float.

Local Abbreviation segments_of := (pivot_segments Doc nlp doc_text similarity threshold).
Local Abbreviation comparisons_of := (pivot_comparisons Doc nlp similarity threshold).

Lemma pivot_comparisons_candidates (candidates : list string) :
  forall p i pivot,
    map snd (comparisons_of p i pivot candidates) = seq i (length candidates).
Proof.
  induction candidates as [|c rest IH]; intros p i pivot; simpl; [reflexivity|].
  f_equal. destruct (PrimFloat.leb threshold (similarity (nlp pivot) (nlp c))); apply IH.
Qed.

Lemma pivot_comparisons_backward (candidates : list string) :
  forall p i pivot,
    (p < i)%nat ->
    Forall (fun pair => (fst pair < snd pair)%nat) (comparisons_of p i pivot candidates).
Proof.
  induction candidates as [|c rest IH]; intros p i pivot Hlt; simpl; constructor.
  - exact Hlt.
  - destruct (PrimFloat.leb threshold (similarity (nlp pivot) (nlp c))); apply IH; lia.
Qed.

Lemma pivot_segments_concat (candidates : list string) :
  (forall c, doc_text (nlp c) = c) ->
  forall pivot current,
    concat (segments_of pivot current candidates) = current ++ candidates.
Proof.
  intros Htext. induction candidates as [|c rest IH]; intros pivot current; simpl.
  - rewrite app_nil_r. reflexivity.
  - destruct (PrimFloat.leb threshold (similarity (nlp pivot) (nlp c))).
    + rewrite IH, Htext, <- app_assoc. reflexivity.
    + simpl. rewrite IH. reflexivity.
Qed.

Lemma pivot_segments_nonempty (candidates : list string) :
  forall pivot current,
    current <> [] ->
    Forall (fun g => g <> []) (segments_of pivot current candidates).
Proof.
  induction candidates as [|c rest IH]; intros pivot current Hne; simpl.
  - constructor; [exact Hne | constructor].
  - destruct (PrimFloat.leb threshold (similarity (nlp pivot) (nlp c))).
    + apply IH. destruct current; discriminate.
    + constructor; [exact Hne | apply IH; discriminate].
Qed.

Lemma pivot_segments_all_below (candidates : list string) :
  (forall a b, PrimFloat.leb threshold (similarity a b) = false) ->
  forall pivot current,
    segments_of pivot current candidates = current :: map (fun c => [c]) candidates.
Proof.
  intros Hlow. induction candidates as [|c rest IH]; intros pivot current; simpl.
  - reflexivity.
  - rewrite Hlow, IH. reflexivity.
Qed.

Lemma pivot_segments_all_above (candidates : list string) :
  (forall a b, PrimFloat.leb threshold (similarity a b) = true) ->
  forall pivot current,
    segments_of pivot current candidates =
      [current ++ map (fun c => doc_text (nlp c)) candidates].
Proof.
  intros Hhigh. induction candidates as [|c rest IH]; intros pivot current; simpl.
  - rewrite app_nil_r. reflexivity.
  - rewrite Hhigh, IH, <- app_assoc. reflexivity.
Qed.

End GroupingMore.

(** Each chunk after the first is the candidate of exactly one comparison,
    in order, and is compared with a chunk before it. *)
Theorem group_segments_comparisons :
  forall (Doc : Type) (nlp : string -> Doc) (doc_text : Doc -> string)
         (similarity : Doc -> Doc -> float) (threshold : float)
         (c0 : string) (rest : list string),
  exists (segs : list string) (log : list (nat * nat)),
    group_segments Doc nlp doc_text similarity threshold (c0 :: rest) = Return (segs, log) /\
    map snd log = seq 1 (length rest) /\
    Forall (fun pair => (fst pair < snd pair)%nat) log.
Proof.
  intros. eexists _, _. split; [apply group_segments_pivot|]. split.
  - apply pivot_comparisons_candidates.
  - apply pivot_comparisons_backward. lia.
Qed.

(** When the parser gives back the text it was given, the segments are
    the joins of non-empty runs of consecutive chunks that together make up
    the chunk list. *)
Theorem group_segments_partition :
  forall (Doc : Type) (nlp : string -> Doc) (doc_text : Doc -> string)
         (similarity : Doc -> Doc -> float) (threshold : float)
         (c0 : string) (rest : list string),
    (forall c, doc_text (nlp c) = c) ->
    exists (groups : list (list string)) (log : list (nat * nat)),
      group_segments Doc nlp doc_text similarity threshold (c0 :: rest) =
        Return (map (join " ") groups, log) /\
      concat groups = c0 :: rest /\
      Forall (fun g => g <> []) groups.
Proof.
  intros Doc nlp doc_text similarity threshold c0 rest Htext.
  eexists _, _. split; [apply group_segments_pivot|]. split.
  - apply (pivot_segments_concat Doc nlp doc_text similarity threshold rest Htext c0 [c0]).
  - apply pivot_segments_nonempty. discriminate.
Qed.

Lemma group_segments_partition_witness :
  exists (groups : list (list string)) (log : list (nat * nat)),
    group_segments string id id toy_similarity 0.75%float ["a1"; "b1"; "c1"; "c2"] =
      Return (map (join " ") groups, log) /\
    concat groups = ["a1"; "b1"; "c1"; "c2"] /\
    Forall (fun g => g <> []) groups.
Proof.
  apply (group_segments_partition string id id toy_similarity 0.75%float "a1" ["b1"; "c1"; "c2"]).
  intros c. reflexivity.
Defined.

Lemma join_singletons (sep : string) (l : list string) :
  map (join sep) (map (fun c => [c]) l) = l.
Proof. induction l as [|x l IH]; simpl; [reflexivity | rewrite IH; reflexivity]. Qed.

(** A threshold no score reaches leaves every chunk a segment of its own;
    a threshold every score reaches merges all the chunks into one
    segment. *)
Theorem group_segments_extremes :
  forall (Doc : Type) (nlp : string -> Doc) (doc_text : Doc -> string)
         (similarity : Doc -> Doc -> float) (threshold : float)
         (c0 : string) (rest : list string),
    ((forall a b, PrimFloat.leb threshold (similarity a b) = false) ->
     exists log,
       group_segments Doc nlp doc_text similarity threshold (c0 :: rest) =
         Return (c0 :: rest, log)) /\
    ((forall a b, PrimFloat.leb threshold (similarity a b) = true) ->
     exists log,
       group_segments Doc nlp doc_text similarity threshold (c0 :: rest) =
         Return ([join " " (c0 :: map (fun c => doc_text (nlp c)) rest)], log)).
Proof.
  intros Doc nlp doc_text similarity threshold c0 rest. split; intros H; eexists;
    rewrite group_segments_pivot.
  - rewrite (pivot_segments_all_below _ _ _ _ _ rest H).
    change ([c0] :: map (fun c => [c]) rest) with (map (fun c : string => [c]) (c0 :: rest)).
    rewrite join_singletons. reflexivity.
  - rewrite (pivot_segments_all_above _ _ _ _ _ rest H). reflexivity.
Qed.

Lemma group_segments_extremes_witness :
  (exists log,
     group_segments string id id toy_similarity 2%float ["a1"; "b1"; "c1"] =
       Return (["a1"; "b1"; "c1"], log)) /\
  (exists log,
     group_segments string id id toy_similarity (-1)%float ["a1"; "b1"; "z1"] =
       Return (["a1 b1 z1"], log)).
Proof.
  split.
  - apply (group_segments_extremes string id id toy_similarity 2%float "a1" ["b1"; "c1"]).
    intros a b. unfold toy_similarity.
    destruct ((first_code a - first_code b <=? 1) && (first_code b - first_code a <=? 1))%nat;
      reflexivity.
  - apply (group_segments_extremes string id id toy_similarity (-1)%float "a1" ["b1"; "z1"]).
    intros a b. unfold toy_similarity.
    destruct ((first_code a - first_code b <=? 1) && (first_code b - first_code a <=? 1))%nat;
      reflexivity.
Defined.

(** ** The methods composed *)

Lemma zip_map_both {A B C : Type} (f : A -> B) (g : A -> C) (l : list A) :
  zip (map f l) (map g l) = map (fun x => (f x, g x)) l.
Proof. induction l as [|x l IH]; simpl; [reflexivity | f_equal; exact IH]. Qed.

Lemma to_chunks_rows_nonempty (encode : string -> list N) (max_tokens : Z)
    (sequences : list string) :
  sequences <> [] -> to_chunks_rows encode max_tokens sequences <> [].
Proof.
  intros Hne Hrows.
  pose proof (to_chunks_members_partition encode max_tokens sequences) as Hpart.
  rewrite Hrows in Hpart. simpl in Hpart. congruence.
Qed.

Section MethodFacts.

Variable encode : string -> list N.
Variable Doc : Type.
Variable nlp : string -> Doc.
Variable sents : Doc -> list string.
Variable doc_text : Doc -> string.
Variable similarity : Doc -> Doc -> float.

Local Abbreviation to_chunks_ := (to_chunks encode Doc nlp sents).
Local Abbreviation group_ := (group_by_semantics encode Doc nlp sents doc_text similarity).
Local Abbreviation to_dataframe_ := (to_dataframe encode Doc nlp sents doc_text similarity).

Local Ltac run_methods :=
  unfold to_dataframe, group_by_semantics, to_chunks, split, bind, get, lift, ret,
    set_text, set_sequences, set_chunks, set_n_tokens, set_segments, set_dataframe;
  simpl.

(** [to_chunks()] on the stored sentences, then [to_dataframe()]: the
    table pairs each chunk with its count, whatever the sentences are. *)
Theorem to_chunks_then_to_dataframe (max_tokens mt : Z) (threshold : float) (p : processor) :
  let rows := to_chunks_rows encode max_tokens (sequences p) in
  let table := mkDataFrame (map (fun r => (row_text r, row_tokens r)) rows) None in
  snd (to_chunks_ None max_tokens p) = Return (map row_text rows) /\
  to_dataframe_ None mt threshold (fst (to_chunks_ None max_tokens p)) =
    (Processor (text p) (sequences p) (map row_text rows) (map row_tokens rows)
               (segments p) table,
     Return table).
Proof.
  intros rows table. run_methods. split; [reflexivity|].
  fold rows. rewrite !length_map, Nat.eqb_refl, zip_map_both. reflexivity.
Qed.

(** [to_dataframe] on a text with at least one sentence returns the table
    of the chunks of [to_chunks] with their counts; the threshold and the
    segments play no part in it. *)
Theorem to_dataframe_of_text (s : string) (max_tokens : Z) (threshold : float) (p : processor) :
  sents (nlp s) <> [] ->
  let rows := to_chunks_rows encode max_tokens (sents (nlp s)) in
  let table := mkDataFrame (map (fun r => (row_text r, row_tokens r)) rows) None in
  snd (to_dataframe_ (Some (Str s)) max_tokens threshold p) = Return table /\
  dataframe (fst (to_dataframe_ (Some (Str s)) max_tokens threshold p)) = table /\
  sequences (fst (to_dataframe_ (Some (Str s)) max_tokens threshold p)) = sents (nlp s).
Proof.
  intros Hne rows table.
  pose proof (to_chunks_rows_nonempty encode max_tokens (sents (nlp s)) Hne) as Hrows.
  fold rows in Hrows. subst table. run_methods. fold rows.
  destruct rows as [|r rows]; [congruence|]. simpl.
  rewrite group_segments_pivot. simpl.
  rewrite !length_map, Nat.eqb_refl, zip_map_both. repeat split; reflexivity.
Qed.

(** On a text in which the parser finds no sentence, [group_by_semantics]
    raises [IndexError], after the text, the sentence list, the chunks and
    the counts have been overwritten. *)
Theorem group_by_semantics_no_sentence (s : string) (max_tokens : Z) (threshold : float)
    (p : processor) :
  sents (nlp s) = [] ->
  group_ (Some (Str s)) max_tokens threshold p =
    (Processor (Some (Str s)) [] [] [] (segments p) (dataframe p), Raise IndexError).
Proof.
  intros Hnone. run_methods. rewrite Hnone. reflexivity.
Qed.

(** [to_dataframe] on a non-empty list, on a processor without counts:
    each chunk is paired with the count of its own text. *)
Theorem to_dataframe_of_list (l : list string) (max_tokens : Z) (threshold : float)
    (p : processor) :
  n_tokens p = [] ->
  l <> [] ->
  snd (to_dataframe_ (Some (StrList l)) max_tokens threshold p) =
    Return (mkDataFrame (map (fun c => (c, len (encode c))) l) None).
Proof.
  intros Hfresh Hne. run_methods. rewrite Hfresh. simpl.
  destruct l as [|c0 rest]; [congruence|].
  rewrite group_segments_pivot. simpl.
  rewrite length_map, Nat.eqb_refl.
  change (zip rest (map (fun chunk => len (encode chunk)) rest))
    with (zip rest (map (fun c => len (encode c)) rest)).
  rewrite zip_measured. reflexivity.
Qed.

(** [to_dataframe] on a non-empty list whose length differs from that of
    the counts the processor holds: [ValueError], with the chunks replaced,
    the counts and the table as they were. *)
Theorem to_dataframe_length_mismatch (l : list string) (max_tokens : Z) (threshold : float)
    (p : processor) :
  n_tokens p <> [] ->
  l <> [] ->
  length l <> length (n_tokens p) ->
  let after := to_dataframe_ (Some (StrList l)) max_tokens threshold p in
  snd after = Raise ValueError /\
  chunks (fst after) = l /\
  n_tokens (fst after) = n_tokens p /\
  dataframe (fst after) = dataframe p.
Proof.
  intros Hstale Hne Hlen after. subst after. run_methods.
  destruct (n_tokens p) as [|n ns] eqn:En; [congruence|]. simpl.
  destruct l as [|c0 rest]; [congruence|].
  rewrite group_segments_pivot. simpl. rewrite !En.
  assert (Hneq : length rest <> length ns).
  { intros Heq. apply Hlen. simpl. rewrite Heq. reflexivity. }
  simpl. rewrite (proj2 (Nat.eqb_neq _ _) Hneq). simpl. rewrite ?En.
  repeat split; reflexivity.
Qed.

End MethodFacts.

Lemma to_dataframe_of_text_witness :
  snd (to_dataframe char_tokens string id toy_sents id toy_similarity
         (Some (Str "ab. cd. efghi")) 8 0.75%float stale_processor) =
    Return (mkDataFrame [("ab cd", 6); ("efghi", 6)] None) /\
  dataframe (fst (to_dataframe char_tokens string id toy_sents id toy_similarity
                    (Some (Str "ab. cd. efghi")) 8 0.75%float stale_processor)) =
    mkDataFrame [("ab cd", 6); ("efghi", 6)] None /\
  sequences (fst (to_dataframe char_tokens string id toy_sents id toy_similarity
                    (Some (Str "ab. cd. efghi")) 8 0.75%float stale_processor)) =
    ["ab"; "cd"; "efghi"].
Proof.
  apply (to_dataframe_of_text char_tokens string id toy_sents id toy_similarity
           "ab. cd. efghi" 8 0.75%float stale_processor).
  discriminate.
Defined.

Lemma group_by_semantics_no_sentence_witness :
  group_by_semantics char_tokens string id toy_sents id toy_similarity
    (Some (Str "")) 100 0.75%float stale_processor =
  (Processor (Some (Str "")) [] [] [] [] (mkDataFrame [] None), Raise IndexError).
Proof.
  apply (group_by_semantics_no_sentence char_tokens string id toy_sents id toy_similarity
           "" 100 0.75%float stale_processor).
  reflexivity.
Defined.

Lemma to_dataframe_of_list_witness :
  snd (to_dataframe char_tokens string id toy_sents id toy_similarity
         (Some (StrList ["ab cd"; "efghi"])) 120 0.75%float picky_processor) =
    Return (mkDataFrame [("ab cd", 5); ("efghi", 5)] None).
Proof.
  apply (to_dataframe_of_list char_tokens string id toy_sents id toy_similarity
           ["ab cd"; "efghi"] 120 0.75%float picky_processor);
    [reflexivity | discriminate].
Defined.

Lemma to_dataframe_length_mismatch_witness :
  snd (to_dataframe char_tokens string id toy_sents id toy_similarity
         (Some (StrList ["ab"; "cd"])) 120 0.75%float stale_processor) = Raise ValueError /\
  chunks (fst (to_dataframe char_tokens string id toy_sents id toy_similarity
                 (Some (StrList ["ab"; "cd"])) 120 0.75%float stale_processor)) = ["ab"; "cd"] /\
  n_tokens (fst (to_dataframe char_tokens string id toy_sents id toy_similarity
                   (Some (StrList ["ab"; "cd"])) 120 0.75%float stale_processor)) = [34] /\
  dataframe (fst (to_dataframe char_tokens string id toy_sents id toy_similarity
                    (Some (StrList ["ab"; "cd"])) 120 0.75%float stale_processor)) =
    mkDataFrame [] None.
Proof.
  apply (to_dataframe_length_mismatch char_tokens string id toy_sents id toy_similarity
           ["ab"; "cd"] 120 0.75%float stale_processor);
    [discriminate | discriminate | simpl; lia].
Defined.

(** ** The fetchers: which failure surfaces, and the naive pipeline *)

Section FetchMore.

Variable encode : string -> list N.
Variable Doc : Type.
Variable nlp : string -> Doc.
Variable sents : Doc -> list string.
Variable doc_text : Doc -> string.
Variable similarity : Doc -> Doc -> float.
Variable DEFAULT : nat.
Variable service : string -> nat -> exn + vector.

Local Abbreviation embeddings_ :=
  (embeddings encode Doc nlp sents doc_text similarity DEFAULT service).
Local Abbreviation async_embeddings_ :=
  (async_embeddings encode Doc nlp sents doc_text similarity DEFAULT service).
Local Abbreviation sync_create := (create_embedding service (OpenAI DEFAULT None)).
Local Abbreviation async_create :=
  (create_embedding service (AsyncOpenAI DEFAULT (Some 1%nat))).

Lemma fetch_rows_first_failure (c : client) (before after : list (string * Z))
    (row : string * Z) (e : exn) :
  Forall (fun r => exists v, create_embedding service c (fst r) = Return v) before ->
  create_embedding service c (fst row) = Raise e ->
  forall acc, fetch_rows service c (before ++ row :: after) acc = Raise e.
Proof.
  intros Hbefore He. induction Hbefore as [|r before [v Hv] _ IH]; intros acc; simpl.
  - rewrite He. reflexivity.
  - rewrite Hv. apply IH.
Qed.

(** The sequential fetcher raises the exception of the first row, in row
    order, whose request fails; the rows after it are not requested and
    the processor is left as it was. *)
Theorem embeddings_first_failure (max_tokens : Z) (threshold : float) (p : processor)
    (before after : list (string * Z)) (row : string * Z) (e : exn) :
  records (dataframe p) = before ++ row :: after ->
  Forall (fun r => exists v, sync_create (fst r) = Return v) before ->
  sync_create (fst row) = Raise e ->
  embeddings_ None max_tokens threshold p = (p, Raise e).
Proof.
  intros Hrows Hbefore He.
  unfold embeddings, bind, get, lift, ret.
  rewrite Hrows, (fetch_rows_first_failure _ before after row e Hbefore He). reflexivity.
Qed.

Lemma gather_run_first_failure (c : client) (inputs : list string)
    (finished later : list nat) (i : nat) (input : string) (e : exn) :
  Forall (fun j => forall t, inputs !! j = Some t ->
                   exists v, create_embedding service c t = Return v) finished ->
  inputs !! i = Some input ->
  create_embedding service c input = Raise e ->
  forall slots, gather_run service c inputs (finished ++ i :: later) slots = Raise e.
Proof.
  intros Hfin Hi He. induction Hfin as [|j finished Hj _ IH]; intros slots; simpl.
  - rewrite Hi, He. reflexivity.
  - destruct (inputs !! j) as [t|]; [|apply IH].
    destruct (Hj t eq_refl) as [v ->]. apply IH.
Qed.

(** The concurrent fetcher raises the exception of the first task, in
    order of completion, whose request fails. *)
Theorem async_embeddings_first_failure (schedule : nat -> list nat)
    (max_tokens : Z) (threshold : float) (p : processor)
    (finished later : list nat) (i : nat) (row : string * Z) (e : exn) :
  schedule (length (records (dataframe p))) = finished ++ i :: later ->
  Forall (fun j => forall r, records (dataframe p) !! j = Some r ->
                   exists v, async_create (fst r) = Return v) finished ->
  records (dataframe p) !! i = Some row ->
  async_create (fst row) = Raise e ->
  async_embeddings_ schedule None max_tokens threshold p = (p, Raise e).
Proof.
  intros Hsched Hfin Hi He.
  unfold async_embeddings, bind, get, lift, ret, gather.
  rewrite length_map, Hsched.
  rewrite (gather_run_first_failure _ (map fst (records (dataframe p))) finished later i
             (fst row) e); [reflexivity | | | exact He].
  - eapply Forall_impl; [exact Hfin|]. intros j Hj t Ht. simpl in Hj.
    change (map fst (records (dataframe p))) with (fst <$> records (dataframe p)) in Ht.
    rewrite list_lookup_fmap in Ht.
    destruct (records (dataframe p) !! j) as [r|] eqn:Er; [|discriminate].
    injection Ht as <-. exact (Hj r eq_refl).
  - change (map fst (records (dataframe p))) with (fst <$> records (dataframe p)).
    rewrite list_lookup_fmap, Hi. reflexivity.
Qed.

(** Given a table as [data], [embeddings] does as if given nothing, and
    [async_embeddings] raises [ValueError] from the parser with the table
    stored as the processor's text. *)
Theorem fetchers_given_table (schedule : nat -> list nat) (df : DataFrame)
    (max_tokens : Z) (threshold : float) (p : processor) :
  embeddings_ (Some (Frame df)) max_tokens threshold p =
    embeddings_ None max_tokens threshold p /\
  async_embeddings_ schedule (Some (Frame df)) max_tokens threshold p =
    (Processor (Some (Frame df)) (sequences p) (chunks p) (n_tokens p) (segments p)
               (dataframe p),
     Raise ValueError).
Proof.
  split; reflexivity.
Qed.

(** *** naive_text_to_embeddings *)

Local Abbreviation naive_ :=
  (naive_text_to_embeddings encode Doc nlp sents doc_text similarity DEFAULT service).

(** When every request is answered, [naive_text_to_embeddings] returns the
    rows of [naive_token_splitter] with, in each row, the vector answered
    for its text. *)
Theorem naive_text_to_embeddings_answered (response : string -> vector)
    (fresh : processor) (text_ : string) (max_tokens : Z) :
  (forall input, sync_create input = Return (response input)) ->
  let table := naive_token_splitter encode text_ max_tokens 50 in
  snd (naive_ fresh text_ max_tokens) =
    Return (mkDataFrame table (Some (map (fun row => response (fst row)) table))).
Proof.
  intros Hanswered table.
  unfold naive_text_to_embeddings, embeddings, assign_embeddings, bind, get, lift, ret,
    set_dataframe.
  simpl. fold table.
  rewrite (fetch_rows_answered service _ response Hanswered). reflexivity.
Qed.

(** A text whose sentences all fit in one chunk gives an empty table, and
    no request is made: the result is the same whatever the service
    does. *)
Theorem naive_text_to_embeddings_one_chunk (fresh : processor) (text_ : string)
    (max_tokens : Z) :
  total (map (fun s => measure_leading encode s + 1) (naive_split text_ 50)) <= max_tokens + 1 ->
  snd (naive_ fresh text_ max_tokens) = Return (mkDataFrame [] (Some [])).
Proof.
  intros Hfit.
  unfold naive_text_to_embeddings, embeddings, assign_embeddings, bind, get, lift, ret,
    set_dataframe, naive_token_splitter, naive_rows.
  simpl. rewrite (splitter_loop_one_chunk encode max_tokens (naive_split text_ 50) Hfit).
  reflexivity.
Qed.

End FetchMore.

Lemma embeddings_first_failure_witness :
  embeddings char_tokens string id toy_sents id toy_similarity 2 service_picky
    None 120 0.75%float picky_processor =
  (picky_processor, Raise (ProviderError "x one")).
Proof.
  apply (embeddings_first_failure char_tokens string id toy_sents id toy_similarity 2
           service_picky 120 0.75%float picky_processor
           [("a b", 2)] [("m n", 2); ("x two", 2)] ("x one", 2) (ProviderError "x one")).
  - reflexivity.
  - constructor; [eexists; reflexivity | constructor].
  - reflexivity.
Defined.

(** The third task finishes first, then the fourth: the exception is the
    one of the fourth row, not of the second. *)
Lemma async_embeddings_first_failure_witness :
  async_embeddings char_tokens string id toy_sents id toy_similarity 2 service_picky
    (fun _ => [2; 3; 1; 0]%nat) None 120 0.75%float picky_processor =
  (picky_processor, Raise (ProviderError "x two")).
Proof.
  apply (async_embeddings_first_failure char_tokens string id toy_sents id toy_similarity 2
           service_picky (fun _ => [2; 3; 1; 0]%nat) 120 0.75%float picky_processor
           [2%nat] [1; 0]%nat 3%nat ("x two", 2) (ProviderError "x two")).
  - reflexivity.
  - constructor; [|constructor]. intros r Hr. injection Hr as <-. eexists. reflexivity.
  - reflexivity.
  - reflexivity.
Defined.

Lemma embeddings_aborts_witness :
  exists e', embeddings char_tokens string id toy_sents id toy_similarity 2 service_picky
               None 120 0.75%float picky_processor = (picky_processor, Raise e').
Proof.
  apply (embeddings_aborts char_tokens string id toy_sents id toy_similarity 2 service_picky
           120 0.75%float picky_processor ("x two", 2) (ProviderError "x two")).
  - simpl. repeat constructor.
  - reflexivity.
Defined.

Lemma async_embeddings_aborts_witness :
  exists e', async_embeddings char_tokens string id toy_sents id toy_similarity 2 service_picky
               (fun n => rev (seq 0 n)) None 120 0.75%float picky_processor =
             (picky_processor, Raise e').
Proof.
  apply (async_embeddings_aborts char_tokens string id toy_sents id toy_similarity 2
           service_picky (fun n => rev (seq 0 n)) 120 0.75%float picky_processor
           ("x one", 2) (ProviderError "x one")).
  - intros n. symmetry. apply Permutation_rev.
  - simpl. repeat constructor.
  - reflexivity.
Defined.

Lemma naive_text_to_embeddings_answered_witness :
  snd (naive_text_to_embeddings char_tokens string id toy_sents id toy_similarity 2 toy_service
         stale_processor
         ("The quick brown fox jumps over the lazy dog near the river bank. " +:+
          "A second sentence follows it and is just as long as the first one. " +:+
          "The third sentence only serves to close the chunk made of the two.") 131) =
    Return (mkDataFrame
              [("The quick brown fox jumps over the lazy dog near the river bank. " +:+
                "A second sentence follows it and is just as long as the first one.", 132)]
              (Some [[0.125%float]])).
Proof.
  apply (naive_text_to_embeddings_answered char_tokens string id toy_sents id toy_similarity 2
           toy_service toy_response stale_processor
           ("The quick brown fox jumps over the lazy dog near the river bank. " +:+
            "A second sentence follows it and is just as long as the first one. " +:+
            "The third sentence only serves to close the chunk made of the two.") 131).
  intros input. reflexivity.
Defined.

Lemma naive_text_to_embeddings_one_chunk_witness :
  snd (naive_text_to_embeddings char_tokens string id toy_sents id toy_similarity 2 service_down
         stale_processor
         "The quick brown fox jumps over the lazy dog near the river bank" 500) =
    Return (mkDataFrame [] (Some [])).
Proof.
  apply (naive_text_to_embeddings_one_chunk char_tokens string id toy_sents id toy_similarity 2
           service_down stale_processor
           "The quick brown fox jumps over the lazy dog near the river bank" 500).
  vm_compute. discriminate.
Defined.

(** ** naive_split: the sentences it keeps *)

Lemma append_cons (a : ascii) (s t : string) : String a s +:+ t = String a (s +:+ t).
Proof. reflexivity. Qed.

Lemma has_dot_space_snoc (acc : string) (c : ascii) :
  has_dot_space (acc +:+ String c "") =
    has_dot_space acc || (ends_with_dot acc && Ascii.eqb c " ").
Proof.
  induction acc as [|a acc IH]; [reflexivity|].
  destruct acc as [|b acc].
  - change (has_dot_space (String a (String c "")) =
            has_dot_space (String a "") || (ends_with_dot (String a "") && Ascii.eqb c " ")).
    simpl. rewrite orb_false_r. reflexivity.
  - rewrite append_cons.
    change (has_dot_space (String a (String b acc +:+ String c ""))) with
      ((Ascii.eqb a "." && Ascii.eqb b " ") || has_dot_space (String b acc +:+ String c "")).
    rewrite IH.
    change (has_dot_space (String a (String b acc))) with
      ((Ascii.eqb a "." && Ascii.eqb b " ") || has_dot_space (String b acc)).
    change (ends_with_dot (String a (String b acc))) with (ends_with_dot (String b acc)).
    rewrite orb_assoc. reflexivity.
Qed.

Lemma ends_with_dot_snoc (acc : string) (c : ascii) :
  ends_with_dot (acc +:+ String c "") = Ascii.eqb c ".".
Proof.
  induction acc as [|a acc IH]; [reflexivity|].
  destruct acc as [|b acc]; [reflexivity|].
  rewrite append_cons.
  change (ends_with_dot (String a (String b acc +:+ String c ""))) with
    (ends_with_dot (String b acc +:+ String c "")).
  exact IH.
Qed.

(** The pieces of [text.split(". ")] hold no ". ", as long as the piece
    being read holds none and does not end in "." right before a space. *)
Lemma split_dot_space_pieces (s : string) :
  forall acc,
    has_dot_space acc = false ->
    ends_with_dot acc && starts_with_space s = false ->
    Forall (fun piece => has_dot_space piece = false) (split_dot_space acc s).
Proof.
  assert (H : (forall acc,
                  has_dot_space acc = false ->
                  ends_with_dot acc && starts_with_space s = false ->
                  Forall (fun piece => has_dot_space piece = false) (split_dot_space acc s)) /\
              (forall acc c,
                  has_dot_space acc = false ->
                  ends_with_dot acc && Ascii.eqb c " " = false ->
                  Forall (fun piece => has_dot_space piece = false)
                         (split_dot_space acc (String c s)))).
  { induction s as [|d rest [IH1 IH2]]; (split; [|intros acc c Hacc Hedge; rewrite split_dot_space_cons]).
    - intros acc Hacc _. constructor; [exact Hacc | constructor].
    - constructor; [|constructor]. rewrite has_dot_space_snoc, Hacc, Hedge. reflexivity.
    - intros acc Hacc Hedge. apply IH2; assumption.
    - destruct (Ascii.eqb c "." && Ascii.eqb d " ") eqn:Esep.
      + constructor; [exact Hacc|]. apply IH1; reflexivity.
      + apply IH2.
        * rewrite has_dot_space_snoc, Hacc, Hedge. reflexivity.
        * rewrite ends_with_dot_snoc. exact Esep. }
  apply H.
Qed.

(** Every sentence [naive_split] keeps is longer than [minimal_length]
    and holds no ". ". *)
Theorem naive_split_sentences :
  forall (text_ : string) (minimal_length : Z),
    Forall (fun sentence => minimal_length < str_len sentence /\
                            has_dot_space sentence = false)
           (naive_split text_ minimal_length).
Proof.
  intros text_ minimal_length. unfold naive_split.
  pose proof (split_dot_space_pieces text_ "" eq_refl eq_refl) as Hpieces.
  induction Hpieces as [|piece pieces Hpiece _ IH]; simpl; [constructor|].
  destruct (Z.gtb_spec (str_len piece) minimal_length) as [Hlong|Hshort].
  - constructor; [split; [lia | exact Hpiece] | exact IH].
  - exact IH.
Qed.

(** A text without ". " is kept whole when it is long enough and dropped
    otherwise; the empty text gives no sentence for any [minimal_length]
    that is not negative. *)
Theorem naive_split_no_separator :
  forall (text_ : string) (minimal_length : Z),
    has_dot_space text_ = false ->
    naive_split text_ minimal_length =
      if str_len text_ >? minimal_length then [text_] else [].
Proof.
  intros text_ minimal_length Hnone.
  assert (Hsplit : forall s acc,
             has_dot_space s = false -> split_dot_space acc s = [acc +:+ s]).
  { assert (H : forall s,
               (forall acc, has_dot_space s = false -> split_dot_space acc s = [acc +:+ s]) /\
               (forall acc c, has_dot_space (String c s) = false ->
                              split_dot_space acc (String c s) = [acc +:+ String c s])).
    { induction s as [|d rest [IH1 IH2]]; (split; [|intros acc c Hc; rewrite split_dot_space_cons]).
      - intros acc _. rewrite append_nil_r. reflexivity.
      - reflexivity.
      - intros acc Hs. apply IH2, Hs.
      - change (has_dot_space (String c (String d rest))) with
          ((Ascii.eqb c "." && Ascii.eqb d " ") || has_dot_space (String d rest)) in Hc.
        apply orb_false_iff in Hc as [-> Hrest].
        rewrite IH2 by exact Hrest. rewrite append_assoc. reflexivity. }
    intros s acc. apply H. }
  unfold naive_split. rewrite (Hsplit text_ "" Hnone). simpl. reflexivity.
Qed.

Lemma naive_split_no_separator_witness :
  naive_split "one sentence, no full stop" 10 = ["one sentence, no full stop"].
Proof.
  apply (naive_split_no_separator "one sentence, no full stop" 10). reflexivity.
Defined.
